(** * boring-ssr-stack: the copy-files script and the env accessor

    A shallow embedding of the script [copy-files.js] (glob base resolution,
    recursive file search, copying, the debounced watch loop) and of
    [packages/shared/env/index.js] ([get], [init]), with the logger's choice
    of a level, and the properties the specification states about them and
    further ones the code shows.

    Strings are [string]; the file system is a finite map from path to node;
    asynchronous functions become computations in a state-and-outcome monad
    over a [world]; Node's [path] module and the [minimatch] package are
    interfaces the script is parameterised by. *)

From stdpp Require Import base option list gmap strings.
From Stdlib Require Import Ascii Lia.
From Stdlib Require String.

(** ** Strings, as the script uses them *)

Module Str.

(** [s.slice(0, n)] *)
Definition slice0 (n : nat) (s : string) : string := String.substring 0 n s.

(** The character class of the regular expression [/[*?[\]]/]. *)
Definition is_glob_char (c : ascii) : bool :=
  (Ascii.eqb c "*" || Ascii.eqb c "?" || Ascii.eqb c "[" || Ascii.eqb c "]")%bool.

(** [s.match(/[*?[\]]/)]: [None] for [null], otherwise the [index] of the
    first match. *)
Fixpoint search_glob (s : string) : option nat :=
  match s with
  | EmptyString => None
  | String c s' => if is_glob_char c then Some 0 else S <$> search_glob s'
  end.

(** [s.lastIndexOf(c)]: [None] for [-1]. *)
Fixpoint lastIndexOf (c : ascii) (s : string) : option nat :=
  match s with
  | EmptyString => None
  | String a s' =>
      match lastIndexOf c s' with
      | Some i => Some (S i)
      | None => if Ascii.eqb a c then Some 0 else None
      end
  end.

(** [s.split(c)] for a one-character separator: never the empty list. *)
Fixpoint split (c : ascii) (s : string) : list string :=
  match s with
  | EmptyString => [EmptyString]
  | String a s' =>
      if Ascii.eqb a c then EmptyString :: split c s'
      else match split c s' with
           | [] => [String a EmptyString]
           | w :: ws => String a w :: ws
           end
  end.

(** [l.join(d)] *)
Fixpoint join_with (d : string) (l : list string) : string :=
  match l with
  | [] => EmptyString
  | [w] => w
  | w :: ws => w +:+ d +:+ join_with d ws
  end.

Definition starts_with_slash (s : string) : bool :=
  match s with String "/"%char _ => true | _ => false end.

Definition ends_with_slash (s : string) : bool :=
  match rev (String.list_ascii_of_string s) with "/"%char :: _ => true | _ => false end.

End Str.

(** ** Node's [path] module

    The script is written against [path], whose behaviour depends on the
    platform ([path.posix] or [path.win32]) and on the working directory.
    [resolve] is the one-argument use the script makes of [path.resolve];
    [join] the two-argument use of [path.join]. *)

Module path.

Class api := {
  sep : ascii;
  resolve : string → string;
  dirname : string → string;
  basename : string → string;
  join : string → string → string;
  relative : string → string → string;
}.

End path.

(** A model of Node's [path.posix], which belongs to the platform and not to
    the repository, written after the behaviour of its [normalize],
    [resolve], [join], [dirname], [basename] and [relative]. It instantiates
    the examples; the general theorems hold for every [path.api]. *)
Module Posix.

(** Segment normalisation: empty and [.] segments vanish, [..] removes the
    segment before it; above the top, [..] is kept only when
    [allowAboveRoot]. The stack is kept reversed. *)
Fixpoint normalizeSegments (allowAboveRoot : bool) (acc : list string)
    (segs : list string) : list string :=
  match segs with
  | [] => rev acc
  | s :: segs' =>
      if bool_decide (s = "" ∨ s = ".") then
        normalizeSegments allowAboveRoot acc segs'
      else if bool_decide (s = "..") then
        match acc with
        | top :: acc' =>
            if bool_decide (top = "..") then
              normalizeSegments allowAboveRoot (s :: acc) segs'
            else normalizeSegments allowAboveRoot acc' segs'
        | [] =>
            normalizeSegments allowAboveRoot
              (if allowAboveRoot then [s] else []) segs'
        end
      else normalizeSegments allowAboveRoot (s :: acc) segs'
  end.

Definition normalizeString (p : string) (allowAboveRoot : bool) : string :=
  Str.join_with "/" (normalizeSegments allowAboveRoot [] (Str.split "/" p)).

Definition normalize (p : string) : string :=
  if bool_decide (p = "") then "."
  else
    let isAbsolute := Str.starts_with_slash p in
    let trailingSeparator := Str.ends_with_slash p in
    let body := normalizeString p (negb isAbsolute) in
    if bool_decide (body = "") then
      if isAbsolute then "/" else if trailingSeparator then "./" else "."
    else
      let body := if trailingSeparator then body +:+ "/" else body in
      if isAbsolute then "/" +:+ body else body.

Definition resolve (cwd p : string) : string :=
  let resolvedPath :=
    if bool_decide (p = "") then cwd +:+ "/"
    else if Str.starts_with_slash p then p +:+ "/"
    else cwd +:+ "/" +:+ p +:+ "/" in
  let resolvedAbsolute := Str.starts_with_slash resolvedPath in
  let body := normalizeString resolvedPath (negb resolvedAbsolute) in
  if resolvedAbsolute then "/" +:+ body
  else if bool_decide (body = "") then "." else body.

Definition join (a b : string) : string :=
  match bool_decide (a = ""), bool_decide (b = "") with
  | true, true => "."
  | true, false => normalize b
  | false, true => normalize a
  | false, false => normalize (a +:+ "/" +:+ b)
  end.

Fixpoint drop_slashes (l : list ascii) : list ascii :=
  match l with
  | "/"%char :: l' => drop_slashes l'
  | _ => l
  end.

(** What lies beyond the first slash of a reversed p, if there is one. *)
Fixpoint beyond_slash (l : list ascii) : option (list ascii) :=
  match l with
  | [] => None
  | "/"%char :: l' => Some l'
  | _ :: l' => beyond_slash l'
  end.

Fixpoint upto_slash (l : list ascii) : list ascii :=
  match l with
  | [] => []
  | "/"%char :: _ => []
  | a :: l' => a :: upto_slash l'
  end.

Definition dirname (p : string) : string :=
  match p with
  | EmptyString => "."
  | String c0 rest =>
      let hasRoot := Ascii.eqb c0 "/" in
      match beyond_slash (drop_slashes (rev (String.list_ascii_of_string rest))) with
      | None => if hasRoot then "/" else "."
      | Some before =>
          if (hasRoot && bool_decide (before = []))%bool then "//"
          else String c0 (String.string_of_list_ascii (rev before))
      end
  end.

Definition basename (p : string) : string :=
  String.string_of_list_ascii
    (rev (upto_slash (drop_slashes (rev (String.list_ascii_of_string p))))).

Fixpoint strip_common (xs ys : list string) : list string * list string :=
  match xs, ys with
  | x :: xs', y :: ys' =>
      if bool_decide (x = y) then strip_common xs' ys' else (xs, ys)
  | _, _ => (xs, ys)
  end.

Definition segments (abs : string) : list string :=
  filter (λ s, s ≠ "") (Str.split "/" abs).

Definition relative (cwd from to : string) : string :=
  if bool_decide (from = to) then ""
  else
    let from := resolve cwd from in
    let to := resolve cwd to in
    if bool_decide (from = to) then ""
    else
      let '(up, down) := strip_common (segments from) (segments to) in
      Str.join_with "/" (replicate (length up) ".." ++ down).

End Posix.

Definition posix (cwd : string) : path.api := {|
  path.sep := "/"%char;
  path.resolve := Posix.resolve cwd;
  path.dirname := Posix.dirname;
  path.basename := Posix.basename;
  path.join := Posix.join;
  path.relative := Posix.relative cwd;
|}.

(** ** The file system, the console and the process *)

(** What a path leads to: a regular file with its content, a directory,
    which can be listed or not, or something else (a socket, a device). *)
Inductive node :=
  | File (content : string)
  | Dir (readable : bool)
  | Other.

(** What a [fs.Dirent] or a [fs.Stats] tells: [isFile()], [isDirectory()]. *)
Inductive kind := KFile | KDir | KOther.

Definition kind_of (n : node) : kind :=
  match n with File _ => KFile | Dir _ => KDir | Other => KOther end.

Record Dirent := { name : string; dkind : kind }.

Definition isFile (k : kind) : bool :=
  match k with KFile => true | _ => false end.

Definition isDirectory (k : kind) : bool :=
  match k with KDir => true | _ => false end.

Inductive error :=
  | ENOENT (p : string)
  | ENOTDIR (p : string)
  | EACCES (p : string)
  | EISDIR (p : string)
  | EEXIST (p : string).

(** The calls the script makes into [fs.promises]. *)
Inductive syscall :=
  | SysStat (p : string)
  | SysReaddir (p : string)
  | SysMkdir (p : string)
  | SysCopyFile (src dest : string).

Inductive stream := Log | Warn | Error.

(** The lines the script prints. [Copied] leaves out the elapsed seconds,
    which come from the clock. *)
Inductive message :=
  | Usage
  | ArgsRequired
  | NoFilesForPattern (pattern : string)
  | NoBaseDirectory (baseDir pattern : string)
  | NoFilesMatched
  | Copied (fileCount : nat) (fileLabel : string) (outputDir : string)
  | NothingToWatch
  | Watching (dir : string)
  | WatchActive
  | ErrorDuringCopy (e : error)
  | Failed (e : error).

Record world := World {
  fs : gmap string node;
  journal : list syscall;
  console : list (stream * message);
  watchers : list string;
}.

(** How a computation ends: with a value, with a rejected promise or thrown
    exception, with [process.exit], or starved of fuel (the recursion bound
    of the embedding, which no run of the script has). *)
Inductive outcome (A : Type) :=
  | Ret (a : A)
  | Throw (e : error)
  | Exit (code : nat)
  | Starved.
Arguments Ret {A} a.
Arguments Throw {A} e.
Arguments Exit {A} code.
Arguments Starved {A}.

Definition M (A : Type) : Type := world → outcome A * world.

#[export] Instance M_ret : MRet M := λ A a w, (Ret a, w).

#[export] Instance M_bind : MBind M := λ A B k m w,
  match m w with
  | (Ret a, w') => k a w'
  | (Throw e, w') => (Throw e, w')
  | (Exit c, w') => (Exit c, w')
  | (Starved, w') => (Starved, w')
  end.

(** [try { m } catch (error) { h(error) }] and [m.catch(h)]: only a thrown
    error reaches the handler, [process.exit] does not. *)
Definition try_catch {A} (m : M A) (h : error → M A) : M A := λ w,
  match m w with
  | (Throw e, w') => h e w'
  | r => r
  end.

Definition throw {A} (e : error) : M A := λ w, (Throw e, w).

Definition process_exit {A} (code : nat) : M A := λ w, (Exit code, w).

Definition starve {A} : M A := λ w, (Starved, w).

(** [for (const x of l) { s = body(s, x) }] *)
Fixpoint for_of {A S} (l : list A) (body : S → A → M S) (s : S) : M S :=
  match l with
  | [] => mret s
  | x :: l' => s' ← body s x; for_of l' body s'
  end.

(** The world after one more line, one more call, with another map, with
    one more watcher. *)
Definition printed (to : stream) (msg : message) (w : world) : world :=
  World (fs w) (journal w) (console w ++ [(to, msg)]) (watchers w).

Definition called (calls : list syscall) (w : world) : world :=
  World (fs w) (journal w ++ calls) (console w) (watchers w).

Definition with_fs (m : gmap string node) (w : world) : world :=
  World m (journal w) (console w) (watchers w).

Definition watched (dir : string) (w : world) : world :=
  World (fs w) (journal w) (console w) (watchers w ++ [dir]).

Definition console_print (to : stream) (msg : message) : M unit :=
  λ w, (Ret tt, printed to msg w).

Definition sys (call : syscall) : M unit := λ w, (Ret tt, called [call] w).

Definition get_fs : M (gmap string node) := λ w, (Ret (fs w), w).

Definition put_fs (m : gmap string node) : M unit := λ w, (Ret tt, with_fs m w).

(** [fs.watch(dir, { recursive: true }, listener)] *)
Definition fs_watch (dir : string) : M unit := λ w, (Ret tt, watched dir w).

(** The options object the script hands to [minimatch]. *)
Record MinimatchOptions := { dot : bool }.

(** ** [copy-files.js] *)

Section CopyFiles.

Context {P : path.api}.

(** The [minimatch] package: [minimatch path pattern options]. *)
Variable minimatch : string → string → MinimatchOptions → bool.

(** The bound on the depth of the directory walk. *)
Variable fuel : nat.

(** *** [fs.promises], on the finite map

    Each call is journalled, then reads or rewrites the map, or rejects. *)

Definition fs_read {A} (call : syscall)
    (f : gmap string node → error + A) : M A :=
  sys call;;
  m ← get_fs;
  match f m with
  | inl e => throw e
  | inr a => mret a
  end.

Definition fs_write (call : syscall)
    (f : gmap string node → error + gmap string node) : M unit :=
  sys call;;
  m ← get_fs;
  match f m with
  | inl e => throw e
  | inr m' => put_fs m'
  end.

Definition stat_in (p : string) (m : gmap string node) : error + kind :=
  match m !! p with
  | Some n => inr (kind_of n)
  | None => inl (ENOENT p)
  end.

(** [fs.promises.stat(p)] *)
Definition stat (p : string) : M kind := fs_read (SysStat p) (stat_in p).

(** The entries of [dir]: the paths whose parent it is, in the order the map
    lists them. *)
Definition entries_of (m : gmap string node) (dir : string) : list Dirent :=
  omap (λ '(p, n),
          if bool_decide (path.dirname p = dir ∧ p ≠ dir)
          then Some {| name := path.basename p; dkind := kind_of n |}
          else None)
       (map_to_list m).

Definition readdir_in (dir : string) (m : gmap string node) : error + list Dirent :=
  match m !! dir with
  | Some (Dir true) => inr (entries_of m dir)
  | Some (Dir false) => inl (EACCES dir)
  | Some _ => inl (ENOTDIR dir)
  | None => inl (ENOENT dir)
  end.

(** [fs.promises.readdir(dir, { withFileTypes: true })] *)
Definition readdir (dir : string) : M (list Dirent) :=
  fs_read (SysReaddir dir) (readdir_in dir).

Fixpoint ancestors (n : nat) (p : string) : list string :=
  match n with
  | 0 => []
  | S n' =>
      let d := path.dirname p in
      if bool_decide (d = p) then [] else d :: ancestors n' d
  end.

(** [dir] and the directories above it. *)
Definition lineage (dir : string) : list string :=
  dir :: ancestors (String.length dir) dir.

Definition obstructed (m : gmap string node) (p : string) : bool :=
  match m !! p with
  | Some (File _) | Some Other => true
  | Some (Dir _) | None => false
  end.

Definition ensure_dir (p : string) (m : gmap string node) : gmap string node :=
  match m !! p with
  | None => <[p := Dir true]> m
  | Some _ => m
  end.

Definition mkdir_in (dir : string) (m : gmap string node) : error + gmap string node :=
  if existsb (obstructed m) (ancestors (String.length dir) dir) then
    inl (ENOTDIR dir)
  else if obstructed m dir then inl (EEXIST dir)
  else inr (foldr ensure_dir m (lineage dir)).

(** [fs.promises.mkdir(dir, { recursive: true })]: creates [dir] and every
    missing directory above it; an existing directory is left as it is. *)
Definition mkdir (dir : string) : M unit := fs_write (SysMkdir dir) (mkdir_in dir).

Definition copyFile_in (src dest : string) (m : gmap string node)
    : error + gmap string node :=
  match m !! src with
  | Some (File content) =>
      match m !! path.dirname dest with
      | Some (Dir _) =>
          match m !! dest with
          | Some (Dir _) => inl (EISDIR dest)
          | Some Other => inl (EACCES dest)
          | Some (File _) | None => inr (<[dest := File content]> m)
          end
      | Some _ => inl (ENOTDIR dest)
      | None => inl (ENOENT dest)
      end
  | Some (Dir _) => inl (EISDIR src)
  | Some Other => inl (EACCES src)
  | None => inl (ENOENT src)
  end.

(** [fs.promises.copyFile(src, dest)]: with the default mode an existing
    [dest] is overwritten. *)
Definition copyFile (src dest : string) : M unit :=
  fs_write (SysCopyFile src dest) (copyFile_in src dest).

(** *** The script *)

Record MatchedFile := { absolute : string; relative : string }.

(** [filePath.split(path.sep).join('/')] *)
Definition normalizePath (filePath : string) : string :=
  Str.join_with "/" (Str.split path.sep filePath).

(** [hasGlobChars.test(s)] for [hasGlobChars = /[*?[\]]/] *)
Definition hasGlobChars (s : string) : bool :=
  match Str.search_glob s with Some _ => true | None => false end.

(** Find the base directory before any glob characters. [!match?.index] is
    true when [match] is [null] and also when [match.index] is [0]. *)
Definition findGlobBase (pattern : string) : string :=
  let normalized := normalizePath pattern in
  match Str.search_glob normalized with
  | None => path.dirname pattern
  | Some 0 => path.dirname pattern
  | Some index =>
      let base := Str.slice0 index normalized in
      path.resolve
        match Str.lastIndexOf "/" base with
        | Some lastSlash => Str.slice0 lastSlash base
        | None => "."
        end
  end.

(** Recursively find all files in a directory; [n] bounds the depth. *)
Fixpoint findFiles (n : nat) (dir pattern baseDir : string) : M (list MatchedFile) :=
  match n with
  | 0 => starve
  | S n' =>
      entries ← readdir dir;
      for_of entries (λ results entry,
        let fullPath := path.join dir (name entry) in
        let normalizedPath := normalizePath fullPath in
        if isDirectory (dkind entry) then
          subdirResults ← findFiles n' fullPath pattern baseDir;
          mret (results ++ subdirResults)
        else if (isFile (dkind entry)
                 && minimatch normalizedPath pattern {| dot := true |})%bool then
          let relativePath := path.relative baseDir fullPath in
          mret (results ++ [{| absolute := fullPath; relative := relativePath |}])
        else mret results) []
  end.

(** Copy files to the output directory. *)
Definition copyFiles (files : list MatchedFile) (output : string) : M unit :=
  for_of files (λ _ file,
    let destPath := path.join output (relative file) in
    let destDir := path.dirname destPath in
    mkdir destDir;;
    copyFile (absolute file) destPath) tt.

(** [await fs.promises.stat(p).catch(() => null)] *)
Definition stat_or_null (p : string) : M (option kind) :=
  try_catch (stats ← stat p; mret (Some stats)) (λ _, mret None).

(** Process a single glob pattern. *)
Definition processPattern (pattern : string) : M (list MatchedFile) :=
  let isGlob := hasGlobChars pattern in
  if negb isGlob then
    stat ← stat_or_null pattern;
    if from_option isFile false stat then
      mret [{| absolute := pattern; relative := path.basename pattern |}]
    else
      console_print Warn (NoFilesForPattern pattern);;
      mret []
  else
    let baseDir := findGlobBase pattern in
    let normalizedPattern := normalizePath pattern in
    baseStat ← stat_or_null baseDir;
    if negb (from_option isDirectory false baseStat) then
      console_print Warn (NoBaseDirectory baseDir pattern);;
      mret []
    else findFiles fuel baseDir normalizedPattern baseDir.

(** The module-level constants computed from the command line. *)
Variable outputDir : string.
Variable patterns : list string.
Variable watchMode : bool.

(** The first loop of [processAllPatterns]: the value of [allFiles] when it
    ends. *)
Definition gatherAllFiles : M (list MatchedFile) :=
  for_of patterns (λ allFiles pattern,
    files ← processPattern pattern;
    mret (allFiles ++ files)) [].

(** Process all patterns and copy files. *)
Definition processAllPatterns : M unit :=
  allFiles ← gatherAllFiles;
  (if bool_decide (length allFiles = 0) then
     console_print Error NoFilesMatched;;
     process_exit 1
   else mret tt);;
  copyFiles allFiles outputDir;;
  let fileCount := length allFiles in
  let fileLabel := if bool_decide (fileCount = 1) then "file" else "files" in
  console_print Log (Copied fileCount fileLabel outputDir).

(** The callback [handleFileChange] hands to [setTimeout]. *)
Definition debounced : M unit :=
  try_catch processAllPatterns
    (λ error, console_print Error (ErrorDuringCopy error)).

(** [watchedDirs.add(dir)] on an insertion-ordered [Set]. *)
Definition set_add (dir : string) (s : list string) : list string :=
  if bool_decide (dir ∈ s) then s else s ++ [dir].

(** [setupWatchers]; every watcher it registers has [handleFileChange] as its
    listener. The [patternData] map is filled and never read. *)
Definition setupWatchers : M unit :=
  let watchedDirs :=
    foldl (λ s pattern,
             if hasGlobChars pattern then set_add (findGlobBase pattern) s
             else s) [] patterns in
  if bool_decide (length watchedDirs = 0) then
    console_print Log NothingToWatch
  else
    for_of watchedDirs (λ _ dir,
      stat ← stat_or_null dir;
      if from_option isDirectory false stat then
        fs_watch dir;;
        console_print Log (Watching dir)
      else mret tt) tt;;
    console_print Log WatchActive.

Definition main : M unit :=
  processAllPatterns;;
  if watchMode then setupWatchers else mret tt.

End CopyFiles.

Section Toplevel.

Context {P : path.api}.
Variable minimatch : string → string → MinimatchOptions → bool.
Variable fuel : nat.

(** The body of the module, from [process.argv.slice(2)] on. *)
Definition script (args : list string) : M unit :=
  let help := (bool_decide ("-h" ∈ args) || bool_decide ("--help" ∈ args))%bool in
  if (bool_decide (length args = 0) || help)%bool then
    console_print Log Usage;;
    process_exit (if help then 0 else 1)
  else
    let watchMode :=
      (bool_decide ("-w" ∈ args) || bool_decide ("--watch" ∈ args))%bool in
    let args := filter (λ arg, arg ≠ "-w" ∧ arg ≠ "--watch") args in
    if bool_decide (length args < 2) then
      console_print Error ArgsRequired;;
      console_print Log Usage;;
      process_exit 1
    else
      let outputDir := path.resolve (List.last args "") in
      let patterns := map path.resolve (removelast args) in
      try_catch (main minimatch fuel outputDir patterns watchMode)
        (λ error, console_print Error (Failed error);; process_exit 1).

End Toplevel.

(** ** The watch session

    The event loop as far as [handleFileChange] needs it: a clock in
    milliseconds, the pending timers in the order they were set, and the
    variable [debounceTimer] of the closure. [passes] counts the runs of the
    timer callback. *)

Record session := Session {
  process : world;
  exited : option nat;
  clock : nat;
  debounceTimer : option nat;
  timers : list (nat * nat);
  nextTimer : nat;
  passes : nat;
}.

Section Watch.

(** The callback given to [setTimeout]. *)
Variable callback : M unit.

Definition clearTimeout (id : nat) (s : session) : session :=
  Session (process s) (exited s) (clock s) (debounceTimer s)
    (filter (λ t, t.1 ≠ id) (timers s)) (nextTimer s) (passes s).

(** [debounceTimer = setTimeout(callback, delay)] *)
Definition setTimeout (delay : nat) (s : session) : session :=
  Session (process s) (exited s) (clock s) (Some (nextTimer s))
    (timers s ++ [(nextTimer s, clock s + delay)]) (S (nextTimer s)) (passes s).

Definition handleFileChange (s : session) : session :=
  let s :=
    match debounceTimer s with
    | Some id => clearTimeout id s
    | None => s
    end in
  setTimeout 100 s.

(** A due timer runs the callback, unless it was cleared or the process has
    exited. *)
Definition fire (t : nat * nat) (s : session) : session :=
  match exited s with
  | Some _ => s
  | None =>
      if bool_decide (t ∈ timers s) then
        let '(r, w) := callback (process s) in
        Session w (match r with Exit code => Some code | _ => None end)
          (Nat.max (clock s) t.2) (debounceTimer s)
          (filter (λ t', t'.1 ≠ t.1) (timers s)) (nextTimer s) (S (passes s))
      else s
  end.

(** Time passes until [now]: the timers due by then fire, oldest first. *)
Definition advance (now : nat) (s : session) : session :=
  let s := foldl (λ s t, if bool_decide (t.2 ≤ now) then fire t s else s)
             s (timers s) in
  Session (process s) (exited s) (Nat.max (clock s) now) (debounceTimer s)
    (timers s) (nextTimer s) (passes s).

(** A watcher reports a change at time [now]. *)
Definition change (now : nat) (s : session) : session :=
  let s := advance now s in
  match exited s with
  | Some _ => s
  | None =>
      if bool_decide (watchers (process s) = []) then s
      else handleFileChange s
  end.

Definition changes (times : list nat) (s : session) : session :=
  foldl (λ s now, change now s) s times.

End Watch.

(** The session once [main] has returned in world [w]. *)
Definition watching (w : world) : session :=
  Session w None 0 None [] 0 0.

(** Successive events less than the quiet period apart. *)
Fixpoint rapid (quiet : nat) (last : nat) (times : list nat) : Prop :=
  match times with
  | [] => True
  | t :: times' => last ≤ t ∧ t < last + quiet ∧ rapid quiet t times'
  end.

(** ** Inherited properties

    [process.env] and an object literal inherit from [Object.prototype]: a
    name that is no property of the object itself is looked up there. *)

(** The properties of [Object.prototype]: functions, and the object under
    [__proto__]; none of them is [undefined]. *)
Definition Object_prototype : list string :=
  ["constructor"; "__defineGetter__"; "__defineSetter__"; "hasOwnProperty";
   "__lookupGetter__"; "__lookupSetter__"; "isPrototypeOf";
   "propertyIsEnumerable"; "toString"; "valueOf"; "__proto__";
   "toLocaleString"].

(** ** [packages/shared/env/index.js] *)

Module env.

(** A variable of the environment and [defaultValue] are strings or
    [undefined]. *)
Inductive value := undefined | str (s : string).

Definition truthy (v : value) : bool :=
  match v with
  | undefined => false
  | str s => negb (bool_decide (s = ""))
  end.

(** [a || b] *)
Definition or (a b : value) : value := if truthy a then a else b.

(** The template literal [`${v}`]. *)
Definition template (v : value) : string :=
  match v with
  | undefined => "undefined"
  | str s => s
  end.

(** What [get] returns: a string, or the function or object that
    [process.env] inherits under the key. *)
Inductive returned := text (s : string) | inherited (name : string).

(** [process.env[key] || `${defaultValue}`]. [process.env[key]] is the
    variable of that name, a string, which is truthy unless empty; without a
    variable it is what [process.env] inherits under that name, which is
    truthy, or [undefined]. *)
Definition get (process_env : gmap string string) (key : string)
    (defaultValue : value) : returned :=
  match process_env !! key with
  | Some s => if truthy (str s) then text s else text (template defaultValue)
  | None =>
      if bool_decide (key ∈ Object_prototype) then inherited key
      else text (template defaultValue)
  end.

End env.

(** ** The logger package

    [env.init] logs through it; its level comes from [LOG_LEVEL]. *)

Module logger.

(** Valid pino log levels. *)
Definition LOG_LEVELS : list (string * nat) :=
  [("fatal", 60); ("error", 50); ("warn", 40); ("info", 30); ("debug", 20);
   ("trace", 10)].

(** [LOG_LEVELS[key] !== undefined]: the property is looked up in the object
    and then along its prototype chain. *)
Definition defined (key : string) : bool :=
  (bool_decide (key ∈ LOG_LEVELS.*1) || bool_decide (key ∈ Object_prototype))%bool.

Definition is_upper (c : ascii) : bool :=
  ((65 <=? nat_of_ascii c) && (nat_of_ascii c <=? 90))%nat%bool.

Definition lower (c : ascii) : ascii :=
  if is_upper c then ascii_of_nat (nat_of_ascii c + 32) else c.

(** [s.toLowerCase()], on the letters A to Z; the other bytes are left as
    they are. *)
Fixpoint toLowerCase (s : string) : string :=
  match s with
  | EmptyString => EmptyString
  | String c s' => String (lower c) (toLowerCase s')
  end.

(** Get the log level from the environment variable. *)
Definition getLogLevel (process_env : gmap string string) : string :=
  let level :=
    toLowerCase
      (env.template
         (env.or (from_option env.str env.undefined (process_env !! "LOG_LEVEL"))
                 (env.str "info"))) in
  if defined level then level else "info".

(** The options [pino] is given: the level, and the [pino-pretty] transport,
    by its target, when there is one. *)
Record LoggerOptions := { level : string; transport : option string }.

(** Get base logger options. *)
Definition getBaseLoggerOptions (process_env : gmap string string) : LoggerOptions :=
  let level := getLogLevel process_env in
  let isDevelopment :=
    bool_decide (process_env !! "NODE_ENV" = Some "development") in
  {| level := level;
     transport := if isDevelopment then Some "pino-pretty" else None |}.

(** Get the Fastify-compatible logger configuration. *)
Definition getFastifyLoggerConfig (process_env : gmap string string) : LoggerOptions :=
  getBaseLoggerOptions process_env.

End logger.

(** ** [env.init]

    The module keeps [imported]. [dotenv.config] changes [process.env] as
    the file at the path it is given tells; [loads] lists the paths it was
    given, which are also those of the debug lines. *)

Module env_init.

Record state := State {
  imported : bool;
  process_env : gmap string string;
  loads : list string;
}.

Section Init.

Context {P : path.api}.

(** The directory of the module, [path.dirname(fileURLToPath(import.meta.url))]. *)
Variable dirname : string.

(** [dotenv.config({ path, override: true })] on [process.env]. *)
Variable dotenv_config : string → gmap string string → gmap string string.

(** [path.join] of five arguments is four joins of two. *)
Definition envPath (process_env : gmap string string) : string :=
  let nodeEnv :=
    env.template
      (env.or (from_option env.str env.undefined (process_env !! "NODE_ENV"))
              (env.str "development")) in
  path.resolve
    (path.join (path.join (path.join (path.join dirname "..") "..") "..")
       (".env." +:+ nodeEnv)).

Definition init (st : state) : state :=
  if imported st then st
  else
    let envPath := envPath (process_env st) in
    State true (dotenv_config envPath (process_env st)) (loads st ++ [envPath]).

(** What a program does with the module and the environment. *)
Inductive step :=
  | CallInit
  | SetEnv (key value : string)
  | DeleteEnv (key : string).

Definition step_run (st : state) (step : step) : state :=
  match step with
  | CallInit => init st
  | SetEnv key value =>
      State (imported st) (<[key := value]> (process_env st)) (loads st)
  | DeleteEnv key =>
      State (imported st) (delete key (process_env st)) (loads st)
  end.

Definition steps_run (steps : list step) (st : state) : state :=
  foldl step_run st steps.

End Init.

End env_init.

(** ** The glob base resolver as the specification words it

    Normalise the separators, find the first wildcard, take what is before
    it, cut at the last separator before it, resolve; without a wildcard, the
    parent directory. *)

Section Specification.

Context {P : path.api}.

Definition truncate_at_last_separator (prefix : string) : string :=
  match Str.lastIndexOf "/" prefix with
  | Some i => Str.slice0 i prefix
  | None => "."
  end.

Definition globBase_spec (pattern : string) : string :=
  let normalized := normalizePath pattern in
  match Str.search_glob normalized with
  | Some index =>
      path.resolve (truncate_at_last_separator (Str.slice0 index normalized))
  | None => path.dirname pattern
  end.

End Specification.

(** ** Notions the statements use *)

Section Notions.

Context {P : path.api}.
Variable minimatch : string → string → MinimatchOptions → bool.
Variable fuel : nat.

(** [below m dir p k]: [p] is an entry of kind [k] of [dir] or of a directory
    below [dir]. *)
Inductive below (m : gmap string node) : string → string → kind → Prop :=
  | below_entry dir e :
      e ∈ entries_of m dir →
      below m dir (path.join dir (name e)) (dkind e)
  | below_deeper dir e p k :
      e ∈ entries_of m dir →
      dkind e = KDir →
      below m (path.join dir (name e)) p k →
      below m dir p k.

(** The directories a complete walk from [dir] reads. *)
Definition walked (m : gmap string node) (dir d : string) : Prop :=
  d = dir ∨ below m dir d KDir.

(** The matches a walk from [dir] is to return. *)
Definition matching_below (m : gmap string node) (pattern baseDir dir : string)
    (file : MatchedFile) : Prop :=
  ∃ p, below m dir p KFile
       ∧ minimatch (normalizePath p) pattern {| dot := true |} = true
       ∧ file = {| absolute := p; relative := path.relative baseDir p |}.

(** What the entry [e] of [dir] contributes to them. *)
Definition contributes (m : gmap string node) (pattern baseDir dir : string)
    (e : Dirent) (file : MatchedFile) : Prop :=
  (dkind e = KDir
   ∧ matching_below m pattern baseDir (path.join dir (name e)) file)
  ∨ (dkind e = KFile
     ∧ minimatch (normalizePath (path.join dir (name e))) pattern {| dot := true |} = true
     ∧ file = {| absolute := path.join dir (name e);
                 relative := path.relative baseDir (path.join dir (name e)) |}).

(** How a walk from [dir] may end: with exactly those matches, every
    directory on the way having been read; or with the error of a directory
    on the way that cannot be read. *)
Definition walk_result (m : gmap string node) (pattern baseDir dir : string)
    (r : outcome (list MatchedFile)) : Prop :=
  match r with
  | Ret files =>
      (∀ file, file ∈ files ↔ matching_below m pattern baseDir dir file)
      ∧ (∀ d, walked m dir d → ∃ entries, readdir_in d m = inr entries)
  | Throw e => ∃ d, walked m dir d ∧ readdir_in d m = inl e
  | Exit _ | Starved => False
  end.

(** The tree below [dir] has fewer than [n] levels of directories. *)
Fixpoint shallow (m : gmap string node) (n : nat) (dir : string) : bool :=
  match n with
  | 0 => false
  | S n' =>
      forallb (λ e, if isDirectory (dkind e)
                    then shallow m n' (path.join dir (name e)) else true)
              (entries_of m dir)
  end.


Definition destination (output : string) (file : MatchedFile) : string :=
  path.join output (relative file).

(** The two calls one round of the loop of [copyFiles] makes. *)
Definition copy_calls (output : string) (file : MatchedFile) : list syscall :=
  [SysMkdir (path.dirname (destination output file));
   SysCopyFile (absolute file) (destination output file)].

(** What one round of the loop of [copyFiles] does to the map. *)
Definition copy_one_in (output : string) (file : MatchedFile)
    (m : gmap string node) : error + gmap string node :=
  match mkdir_in (path.dirname (destination output file)) m with
  | inl e => inl e
  | inr m1 => copyFile_in (absolute file) (destination output file) m1
  end.

Fixpoint copy_all_in (output : string) (files : list MatchedFile)
    (m : gmap string node) : error + gmap string node :=
  match files with
  | [] => inr m
  | file :: files' =>
      match copy_one_in output file m with
      | inl e => inl e
      | inr m1 => copy_all_in output files' m1
      end
  end.

Definition is_read (call : syscall) : bool :=
  match call with
  | SysStat _ | SysReaddir _ => true
  | SysMkdir _ | SysCopyFile _ _ => false
  end.

(** [w'] differs from [w] by reading calls and printed lines only. *)
Definition observed (w w' : world) : Prop :=
  fs w' = fs w ∧ watchers w' = watchers w
  ∧ ∃ calls, journal w' = journal w ++ calls ∧ forallb is_read calls = true.

Definition observes {A} (c : M A) : Prop := ∀ w, observed w (c w).2.

(** Returned or thrown: not starved, and no exit. *)
Definition ended {A} (r : outcome A) : Prop :=
  match r with
  | Ret _ | Throw _ => True
  | Exit _ | Starved => False
  end.

Definition is_file (o : option node) : Prop := ∃ content, o = Some (File content).

Definition is_dir (o : option node) : Prop := ∃ readable, o = Some (Dir readable).

End Notions.

(** ** Notions of the further properties *)

(** [s] with every [c] replaced by [d]. *)
Fixpoint replace_char (c d : ascii) (s : string) : string :=
  match s with
  | EmptyString => EmptyString
  | String a s' => String (if Ascii.eqb a c then d else a) (replace_char c d s')
  end.

(** No [process.exit]. *)
Definition stays {A} (r : outcome A) : Prop :=
  match r with Exit _ => False | _ => True end.

Definition never_exits {A} (c : M A) : Prop := ∀ w, stays (c w).1.

#[export] Instance node_eq_dec : EqDecision node.
Proof. solve_decision. Defined.

(** The distinct elements of [l], each where it first occurs: what a [Set]
    holds, in its order, after the elements of [l] were added in turn. *)
Fixpoint distinct (l : list string) : list string :=
  match l with
  | [] => []
  | x :: l' => x :: filter (λ y, y ≠ x) (distinct l')
  end.

(** Successive events at least the quiet period apart. *)
Fixpoint spaced (quiet : nat) (last : nat) (times : list nat) : Prop :=
  match times with
  | [] => True
  | t :: times' => last + quiet ≤ t ∧ spaced quiet t times'
  end.

(** ** A matcher and a file system for the examples

    [Glob.minimatch] stands in for the [minimatch] package in the examples:
    it knows [*], [?] and a whole-segment [**], and skips dot files unless
    [dot] is set. The general theorems do not depend on it. *)

Module Glob.

Fixpoint wild (p x : list ascii) : bool :=
  match p with
  | [] => bool_decide (x = [])
  | "*"%char :: p' =>
      (fix star (x : list ascii) : bool :=
         (wild p' x || match x with [] => false | _ :: x' => star x' end)%bool) x
  | "?"%char :: p' =>
      match x with [] => false | _ :: x' => wild p' x' end
  | c :: p' =>
      match x with [] => false | d :: x' => (Ascii.eqb c d && wild p' x')%bool end
  end.

Definition hidden (x : string) : bool :=
  match x with String "."%char _ => true | _ => false end.

Definition segment (opts : MinimatchOptions) (p x : string) : bool :=
  ((dot opts || negb (hidden x) || hidden p)
   && wild (String.list_ascii_of_string p) (String.list_ascii_of_string x))%bool.

Fixpoint segments (opts : MinimatchOptions) (ps xs : list string) : bool :=
  match ps with
  | [] => bool_decide (xs = [])
  | p :: ps' =>
      if bool_decide (p = "**") then
        (fix globstar (xs : list string) : bool :=
           (segments opts ps' xs
            || match xs with
               | [] => false
               | x :: xs' => (dot opts || negb (hidden x)) && globstar xs'
               end)%bool) xs
      else
        match xs with
        | [] => false
        | x :: xs' => (segment opts p x && segments opts ps' xs')%bool
        end
  end.

Definition minimatch (p pattern : string) (opts : MinimatchOptions) : bool :=
  segments opts (Str.split "/" pattern) (Str.split "/" p).

End Glob.

Module Example.

Definition cwd : string := "/w".

Definition disk : gmap string node :=
  list_to_map [
    ("/", Dir true);
    ("/w", Dir true);
    ("/w/logo.png", File "PNG");
    ("/w/src", Dir true);
    ("/w/src/a", Dir true);
    ("/w/src/a/b", Dir true);
    ("/w/src/a/b/icon.svg", File "<svg/>");
    ("/w/src/a/notes.txt", File "notes");
    ("/w/config", Dir true);
    ("/w/config/.env", File "KEY=1");
    ("/w/config/app.json", File "{}");
    ("/w/vault", Dir true);
    ("/w/vault/sealed", Dir false);
    ("/w/empty", Dir true)
  ].

Definition boot (m : gmap string node) : world := World m [] [] [].

(** [node copy-files.js args...] run in [cwd] on the disk [m]. *)
Definition run (args : list string) (m : gmap string node) : outcome unit * world :=
  script (P := posix cwd) Glob.minimatch 16 args (boot m).

(** A watch session on [src/**/*.svg]: the world [main] leaves, and what
    the timer runs. *)
Definition svg_patterns : list string := ["/w/src/**/*.svg"].

Definition svg_pass : M unit :=
  debounced (P := posix cwd) Glob.minimatch 16 "/w/out" svg_patterns.

Definition started : world := (run ["-w"; "src/**/*.svg"; "out"] disk).2.

(** Then the only icon is deleted. *)
Definition emptied : world :=
  with_fs (delete "/w/src/a/b/icon.svg" (fs started)) started.

(** Or a directory takes the place of the copied icon. *)
Definition jammed : world :=
  with_fs (<["/w/out/a/b/icon.svg" := Dir true]> (fs started)) started.

Definition icon : MatchedFile :=
  {| absolute := "/w/src/a/b/icon.svg"; relative := "a/b/icon.svg" |}.

Definition logo : MatchedFile :=
  {| absolute := "/w/logo.png"; relative := "logo.png" |}.

End Example.

(** * Properties *)

(** ** Strings *)

Lemma split_nonempty c s : Str.split c s ≠ [].
Proof. destruct s as [|a s]; simpl; [done|]. destruct (Ascii.eqb a c); [done|]. by destruct (Str.split c s). Qed.

Lemma join_with_cons d w ws :
  ws ≠ [] → Str.join_with d (w :: ws) = w +:+ d +:+ Str.join_with d ws.
Proof. by destruct ws. Qed.

(** Joining what was split at [c] with [c] gives the string back. *)
Lemma join_split c s : Str.join_with (String c "") (Str.split c s) = s.
Proof.
  induction s as [|a s IH]; simpl; [done|].
  destruct (Ascii.eqb_spec a c) as [->|Hne].
  - rewrite join_with_cons by apply split_nonempty. simpl. by rewrite IH.
  - pose proof (split_nonempty c s) as Hs.
    destruct (Str.split c s) as [|w ws] eqn:E; [done|].
    destruct ws as [|w' ws]; simpl in *; by rewrite <- IH.
Qed.

Lemma normalizePath_posix cwd s : normalizePath (P := posix cwd) s = s.
Proof. apply join_split. Qed.

(** ** The glob base resolver *)

Section GlobBase.

Context {P : path.api}.

(** A wildcard in first position sends [findGlobBase] to [path.dirname]. *)
Lemma findGlobBase_index_0 pattern :
  Str.search_glob (normalizePath pattern) = Some 0 →
  findGlobBase pattern = path.dirname pattern.
Proof. unfold findGlobBase. by intros ->. Qed.


Lemma findGlobBase_no_wildcard pattern :
  Str.search_glob (normalizePath pattern) = None →
  findGlobBase pattern = path.dirname pattern.
Proof. unfold findGlobBase. by intros ->. Qed.

End GlobBase.

(** The two patterns the specification names. *)
Example findGlobBase_partial_segment cwd :
  findGlobBase (P := posix cwd) "foo/ba*r" = path.resolve (api := posix cwd) "foo"
  ∧ findGlobBase (P := posix cwd) "assets/img-*.png"
    = path.resolve (api := posix cwd) "assets".
Proof. split; reflexivity. Qed.

Example findGlobBase_partial_segment_in_w :
  findGlobBase (P := posix "/w") "foo/ba*r" = "/w/foo"
  ∧ findGlobBase (P := posix "/w") "assets/img-*.png" = "/w/assets".
Proof. split; reflexivity. Qed.



(** A pattern that begins with a wildcard, which the script never has: the
    index [0] of the match is taken for the absence of a match, and the
    function returns [path.dirname pattern]. *)
Example findGlobBase_leading_wildcard :
  findGlobBase (P := posix "/w") "[ab]/x/*.txt" = "[ab]/x"
  ∧ globBase_spec (P := posix "/w") "[ab]/x/*.txt" = "/w"
  ∧ hasGlobChars "[ab]/x" = true
  ∧ findGlobBase (P := posix "/w") "*.txt" = "."
  ∧ globBase_spec (P := posix "/w") "*.txt" = "/w".
Proof. repeat split; reflexivity. Qed.

(** ** [env.get] *)




(** A value that is set and not empty is returned as it is. *)
Lemma env_get_present (process_env : gmap string string) key v defaultValue :
  process_env !! key = Some v → v ≠ "" →
  env.get process_env key defaultValue = env.text v.
Proof.
  intros H Hv. unfold env.get. rewrite H. simpl.
  by rewrite bool_decide_eq_false_2.
Qed.

(** ** The monad *)

Lemma bind_run {A B} (m : M A) (k : A → M B) w :
  (m ≫= k) w =
  match m w with
  | (Ret a, w') => k a w'
  | (Throw e, w') => (Throw e, w')
  | (Exit c, w') => (Exit c, w')
  | (Starved, w') => (Starved, w')
  end.
Proof. reflexivity. Qed.

Section Calls.
Context {P : path.api}.

Lemma fs_read_run {A} call (f : gmap string node → error + A) w :
  fs_read call f w =
  match f (fs w) with
  | inl e => (Throw e, called [call] w)
  | inr a => (Ret a, called [call] w)
  end.
Proof. unfold fs_read, mbind, M_bind; simpl. by destruct (f (fs w)). Qed.

Lemma fs_write_run call f w :
  fs_write call f w =
  match f (fs w) with
  | inl e => (Throw e, called [call] w)
  | inr m' => (Ret tt, with_fs m' (called [call] w))
  end.
Proof. unfold fs_write, mbind, M_bind; simpl. by destruct (f (fs w)). Qed.

Lemma stat_or_null_run p w :
  stat_or_null p w = (Ret (kind_of <$> fs w !! p), called [SysStat p] w).
Proof.
  unfold stat_or_null, try_catch, stat. rewrite bind_run, fs_read_run.
  unfold stat_in. by destruct (fs w !! p).
Qed.

End Calls.

(** ** Computations that only observe *)

Lemma observed_refl w : observed w w.
Proof. repeat split. exists []. by rewrite app_nil_r. Qed.

Lemma observed_trans w1 w2 w3 : observed w1 w2 → observed w2 w3 → observed w1 w3.
Proof.
  intros (Hf1 & Hw1 & c1 & Hj1 & Hr1) (Hf2 & Hw2 & c2 & Hj2 & Hr2).
  repeat split; [congruence..|].
  exists (c1 ++ c2). rewrite Hj2, Hj1, <- app_assoc. split; [done|].
  rewrite forallb_app. by rewrite Hr1, Hr2.
Qed.

Lemma observed_printed to msg w : observed w (printed to msg w).
Proof. repeat split. exists []. by rewrite app_nil_r. Qed.

Lemma observed_called_read call w : is_read call = true → observed w (called [call] w).
Proof. intros H. repeat split. exists [call]. simpl. by rewrite H. Qed.

Lemma observes_ret {A} (a : A) : observes (mret a).
Proof. intros w. apply observed_refl. Qed.

Lemma observes_bind {A B} (c : M A) (k : A → M B) :
  observes c → (∀ a, observes (k a)) → observes (c ≫= k).
Proof.
  intros Hc Hk w. rewrite bind_run. specialize (Hc w).
  destruct (c w) as [[a| | |] w']; simpl in *; try done.
  eapply observed_trans; [done|apply Hk].
Qed.

Lemma observes_for_of {A S} (l : list A) (body : S → A → M S) s :
  (∀ s x, x ∈ l → observes (body s x)) → observes (for_of l body s).
Proof.
  revert s. induction l as [|x l IH]; intros s Hb; simpl.
  - apply observes_ret.
  - apply observes_bind.
    + apply Hb. left.
    + intros s'. apply IH. intros. apply Hb. by right.
Qed.

Lemma observes_print to msg : observes (console_print to msg).
Proof. intros w. apply observed_printed. Qed.

Lemma observes_starve {A} : observes (@starve A).
Proof. intros w. apply observed_refl. Qed.

Section Observers.
Context {P : path.api}.
Variable minimatch : string → string → MinimatchOptions → bool.
Variable fuel : nat.

Lemma observes_fs_read {A} call (f : gmap string node → error + A) :
  is_read call = true → observes (fs_read call f).
Proof.
  intros H w. rewrite fs_read_run.
  destruct (f (fs w)); simpl; by apply observed_called_read.
Qed.

Lemma observes_stat_or_null p : observes (stat_or_null p).
Proof. intros w. rewrite stat_or_null_run. by apply observed_called_read. Qed.

Lemma observes_findFiles n dir pattern baseDir :
  observes (findFiles minimatch n dir pattern baseDir).
Proof.
  revert dir. induction n as [|n IH]; intros dir; simpl.
  - apply observes_starve.
  - apply observes_bind; [by apply observes_fs_read|].
    intros entries. apply observes_for_of. intros results entry _.
    destruct (isDirectory (dkind entry)).
    + apply observes_bind; [apply IH|]. intros. apply observes_ret.
    + destruct (_ && _)%bool; apply observes_ret.
Qed.

Lemma observes_processPattern pattern :
  observes (processPattern minimatch fuel pattern).
Proof.
  unfold processPattern. destruct (negb (hasGlobChars pattern)).
  - apply observes_bind; [apply observes_stat_or_null|]. intros st.
    destruct (from_option isFile false st); [apply observes_ret|].
    apply observes_bind; [apply observes_print|]. intros. apply observes_ret.
  - apply observes_bind; [apply observes_stat_or_null|]. intros st.
    destruct (negb _).
    + apply observes_bind; [apply observes_print|]. intros. apply observes_ret.
    + apply observes_findFiles.
Qed.

Lemma observes_gatherAllFiles patterns :
  observes (gatherAllFiles minimatch fuel patterns).
Proof.
  apply observes_for_of. intros allFiles pattern _.
  apply observes_bind; [apply observes_processPattern|].
  intros. apply observes_ret.
Qed.

End Observers.

(** ** The file system calls *)

Section FileSystem.
Context {P : path.api}.

Lemma lookup_ensure_dir a (m : gmap string node) p :
  ensure_dir a m !! p =
  if decide (p = a) then Some (default (Dir true) (m !! p)) else m !! p.
Proof.
  unfold ensure_dir. destruct (decide (p = a)) as [->|Hne].
  - destruct (m !! a) eqn:E; simpl; [done|]. by rewrite lookup_insert_eq.
  - destruct (m !! a); [done|]. by rewrite lookup_insert_ne.
Qed.

(** [mkdir] turns the missing paths of the lineage into directories and
    leaves the rest of the map alone. *)
Lemma lookup_ensure_dirs L (m : gmap string node) p :
  foldr ensure_dir m L !! p =
  if decide (p ∈ L) then Some (default (Dir true) (m !! p)) else m !! p.
Proof.
  induction L as [|a L IH]; cbn [foldr].
  - case_decide as H; [by apply elem_of_nil in H|done].
  - rewrite lookup_ensure_dir, IH.
    destruct (decide (p = a)) as [->|Hne].
    + rewrite (decide_True (P := a ∈ a :: L)) by left.
      by destruct (decide (a ∈ L)).
    + destruct (decide (p ∈ L)) as [Hin|Hnin].
      * by rewrite (decide_True (P := p ∈ a :: L)) by (by right).
      * rewrite (decide_False (P := p ∈ a :: L)); [done|].
        by intros [?|?]%elem_of_cons.
Qed.

Lemma mkdir_in_inr dir m m' :
  mkdir_in dir m = inr m' ↔
  (∀ p, p ∈ lineage dir → obstructed m p = false)
  ∧ m' = foldr ensure_dir m (lineage dir).
Proof.
  unfold mkdir_in, lineage.
  destruct (existsb _ _) eqn:E.
  - split; [done|]. intros [H _]. exfalso.
    apply existsb_exists in E as (p & Hp & Ho).
    rewrite H in Ho; [done|]. right. by apply list_elem_of_In.
  - destruct (obstructed m dir) eqn:E2.
    + split; [done|]. intros [H _]. rewrite H in E2; [done|left].
    + split.
      * intros [= <-]. split; [|done]. intros p [->|Hp]%elem_of_cons; [done|].
        destruct (obstructed m p) eqn:E3; [|done].
        assert (existsb (obstructed m) (ancestors (String.length dir) dir) = true);
          [|congruence].
        apply existsb_exists. exists p. split; [by apply list_elem_of_In|done].
      * by intros [_ ->].
Qed.

Lemma copyFile_in_inr src dest m m' :
  copyFile_in src dest m = inr m' ↔
  ∃ content, m !! src = Some (File content)
    ∧ is_dir (m !! path.dirname dest)
    ∧ (m !! dest = None ∨ is_file (m !! dest))
    ∧ m' = <[dest := File content]> m.
Proof.
  unfold copyFile_in, is_dir, is_file. split.
  - destruct (m !! src) as [[c|r|]|]; try done.
    destruct (m !! path.dirname dest) as [[c'|r|]|]; try done.
    destruct (m !! dest) as [[c'|r'|]|] eqn:E; try done; intros [= <-];
      exists c; naive_solver.
  - intros (c & -> & [r ->] & Hd & ->).
    destruct Hd as [->|[c' ->]]; done.
Qed.

Lemma unobstructed_dir m p :
  obstructed m p = false → m !! p = None ∨ is_dir (m !! p).
Proof.
  unfold obstructed, is_dir. destruct (m !! p) as [[| |]|]; naive_solver.
Qed.

(** One round of [copyFiles] on the map: when it succeeds and what it
    leaves. *)
Lemma copy_one_in_inr output file m m' :
  copy_one_in output file m = inr m' ↔
  (∀ p, p ∈ lineage (path.dirname (destination output file)) → obstructed m p = false)
  ∧ (absolute file ∉ lineage (path.dirname (destination output file)))
  ∧ (destination output file ∉ lineage (path.dirname (destination output file)))
  ∧ (m !! destination output file = None ∨ is_file (m !! destination output file))
  ∧ (∃ content, m !! absolute file = Some (File content)
      ∧ m' = <[destination output file := File content]>
               (foldr ensure_dir m (lineage (path.dirname (destination output file))))).
Proof.
  unfold copy_one_in.
  set (t := destination output file). set (s := absolute file).
  set (L := lineage (path.dirname t)).
  assert (∀ p, (∀ q, q ∈ L → obstructed m q = false) → p ∈ L →
               ∀ c, foldr ensure_dir m L !! p ≠ Some (File c)) as Hdirs.
  { intros p Hun Hp c. rewrite lookup_ensure_dirs, decide_True by done.
    destruct (unobstructed_dir m p (Hun p Hp)) as [->|[r ->]]; done. }
  split.
  - destruct (mkdir_in (path.dirname t) m) as [e|m1] eqn:E; [done|].
    apply mkdir_in_inr in E as [Hun ->]. fold L in Hun |- *.
    intros (c & Hs & Hd & Ht & ->)%copyFile_in_inr.
    assert (s ∉ L) as HsL by (intros Hin; by eapply Hdirs).
    assert (t ∉ L) as HtL.
    { intros Hin. destruct Ht as [Ht|[c' Ht]]; [|by eapply Hdirs].
      rewrite lookup_ensure_dirs, decide_True in Ht by done. done. }
    rewrite lookup_ensure_dirs, decide_False in Hs by done.
    rewrite lookup_ensure_dirs, decide_False in Ht by done.
    split_and!; try done. by exists c.
  - intros (Hun & HsL & HtL & Ht & c & Hs & ->).
    assert (mkdir_in (path.dirname t) m = inr (foldr ensure_dir m L)) as ->
      by (by apply mkdir_in_inr).
    apply copyFile_in_inr. exists c.
    rewrite !lookup_ensure_dirs, (decide_False (P := s ∈ L)),
      (decide_False (P := t ∈ L)) by done.
    split_and!; try done.
    rewrite decide_True by left.
    destruct (unobstructed_dir m (path.dirname t) (Hun _ ltac:(left)))
      as [->|[r ->]]; by eexists.
Qed.

(** The map after a successful round, path by path. *)
Lemma lookup_copy_one_in output file m m' p :
  copy_one_in output file m = inr m' →
  m' !! p =
  if decide (p = destination output file) then m !! absolute file
  else if decide (p ∈ lineage (path.dirname (destination output file)))
       then Some (default (Dir true) (m !! p))
       else m !! p.
Proof.
  intros (Hun & HsL & HtL & Ht & c & Hs & ->)%copy_one_in_inr.
  destruct (decide (p = _)) as [->|Hne].
  - by rewrite lookup_insert_eq.
  - by rewrite lookup_insert_ne, lookup_ensure_dirs.
Qed.

Lemma with_fs_called m1 m2 c1 c2 w :
  with_fs m2 (called c2 (with_fs m1 (called c1 w))) = with_fs m2 (called (c1 ++ c2) w).
Proof. unfold with_fs, called; simpl. by rewrite <- app_assoc. Qed.

Lemma with_fs_same w : with_fs (fs w) (called [] w) = w.
Proof. destruct w. unfold with_fs, called; simpl. by rewrite app_nil_r. Qed.

(** One round of the loop of [copyFiles], in the monad and on the map. *)
Lemma copy_round_run output file w :
  (mkdir (path.dirname (destination output file));;
   copyFile (absolute file) (destination output file)) w =
  match copy_one_in output file (fs w) with
  | inr m' => (Ret tt, with_fs m' (called (copy_calls output file) w))
  | inl e =>
      (Throw e,
       match mkdir_in (path.dirname (destination output file)) (fs w) with
       | inl _ => called [SysMkdir (path.dirname (destination output file))] w
       | inr m1 => with_fs m1 (called (copy_calls output file) w)
       end)
  end.
Proof.
  unfold copy_one_in, mkdir, copyFile. rewrite bind_run, fs_write_run.
  destruct (mkdir_in _ (fs w)) as [e|m1]; [done|].
  rewrite fs_write_run. simpl.
  destruct (copyFile_in _ _ m1) as [e|m2]; unfold with_fs, called, copy_calls; simpl;
    by rewrite <- app_assoc.
Qed.

(** [copyFiles] in the monad is [copy_all_in] on the map, with two calls in
    the journal for every file; it ends by returning or by throwing. *)
Lemma copyFiles_run files output w :
  match copy_all_in output files (fs w) with
  | inr m' =>
      copyFiles files output w =
      (Ret tt, with_fs m' (called (flat_map (copy_calls output) files) w))
  | inl e =>
      ∃ w', copyFiles files output w = (Throw e, w')
            ∧ console w' = console w ∧ watchers w' = watchers w
  end.
Proof.
  revert w. induction files as [|f files IH]; intros w.
  - simpl. unfold copyFiles; simpl. unfold mret, M_ret. by rewrite with_fs_same.
  - unfold copyFiles. cbn [for_of copy_all_in flat_map].
    rewrite bind_run.
    pose proof (copy_round_run output f w) as Hr.
    unfold destination in *. simpl in Hr |- *. rewrite Hr. clear Hr.
    destruct (copy_one_in output f (fs w)) as [e|m1] eqn:E1.
    + eexists. split; [done|]. by destruct (mkdir_in _ (fs w)).
    + specialize (IH (with_fs m1 (called (copy_calls output f) w))).
      simpl in IH.
      destruct (copy_all_in output files m1) as [e|m2].
      * destruct IH as (w' & IH & ? & ?). exists w'. done.
      * unfold copyFiles in IH. rewrite IH. by rewrite with_fs_called.
Qed.

Lemma copyFiles_ret files output w w' :
  copyFiles files output w = (Ret tt, w') ↔
  ∃ m', copy_all_in output files (fs w) = inr m'
        ∧ w' = with_fs m' (called (flat_map (copy_calls output) files) w).
Proof.
  pose proof (copyFiles_run files output w) as H.
  destruct (copy_all_in output files (fs w)) as [e|m'].
  - destruct H as (w'' & -> & _). split; [done|]. by intros (? & ? & _).
  - rewrite H. split.
    + intros [= <-]. by exists m'.
    + by intros (? & [= <-] & ->).
Qed.

End FileSystem.

(** ** Processing the patterns *)

Section Patterns.
Context {P : path.api}.
Variable minimatch : string → string → MinimatchOptions → bool.
Variable fuel : nat.



(** [processAllPatterns] once the list is gathered. *)
Lemma processAllPatterns_run outputDir patterns w :
  processAllPatterns minimatch fuel outputDir patterns w =
  match gatherAllFiles minimatch fuel patterns w with
  | (Ret allFiles, w1) =>
      if bool_decide (length allFiles = 0) then
        (Exit 1, printed Error NoFilesMatched w1)
      else
        match copyFiles allFiles outputDir w1 with
        | (Ret _, w2) =>
            (Ret tt,
             printed Log (Copied (length allFiles)
                            (if bool_decide (length allFiles = 1) then "file" else "files")
                            outputDir) w2)
        | (Throw e, w2) => (Throw e, w2)
        | (Exit c, w2) => (Exit c, w2)
        | (Starved, w2) => (Starved, w2)
        end
  | (Throw e, w1) => (Throw e, w1)
  | (Exit c, w1) => (Exit c, w1)
  | (Starved, w1) => (Starved, w1)
  end.
Proof.
  unfold processAllPatterns. rewrite bind_run.
  destruct (gatherAllFiles minimatch fuel patterns w) as [[all|e|c|] w1]; try done.
  rewrite bind_run. case_bool_decide.
  - done.
  - unfold mret at 1, M_ret at 1. rewrite bind_run.
    by destruct (copyFiles all outputDir w1) as [[[]|e|c|] w2].
Qed.

End Patterns.

(** ** The command line *)

Section CommandLine.
Context {P : path.api}.
Variable minimatch : string → string → MinimatchOptions → bool.
Variable fuel : nat.

(** Without a help flag and with at least two arguments besides the watch
    flags, the script runs [main] on the resolved arguments: the last one is
    the output directory, the others are the patterns, in their order. *)
Lemma script_run args :
  let positional := filter (λ arg, arg ≠ "-w" ∧ arg ≠ "--watch") args in
  "-h" ∉ args → "--help" ∉ args → 2 ≤ length positional →
  script minimatch fuel args =
  try_catch
    (main minimatch fuel (path.resolve (List.last positional ""))
       (map path.resolve (removelast positional))
       (bool_decide ("-w" ∈ args) || bool_decide ("--watch" ∈ args)))
    (λ error, console_print Error (Failed error);; process_exit 1).
Proof.
  intros positional Hh Hhelp Hlen. unfold script. fold positional.
  rewrite (bool_decide_eq_false_2 ("-h" ∈ args)) by done.
  rewrite (bool_decide_eq_false_2 ("--help" ∈ args)) by done.
  rewrite (bool_decide_eq_false_2 (length args = 0)).
  - cbn [orb]. by rewrite (bool_decide_eq_false_2 (length positional < 2)) by lia.
  - intros Hnil. apply length_zero_iff_nil in Hnil. subst args.
    cbn in Hlen. lia.
Qed.

End CommandLine.

(** ** Literal paths, aggregation, and the empty pass *)

Section Passes.
Context {P : path.api}.
Variable minimatch : string → string → MinimatchOptions → bool.
Variable fuel : nat.

(** C6: an argument without wildcard characters is a literal path. When it
    names a regular file it gives exactly one match, whose relative path is
    its basename, so that the copier puts its content at the output directory
    joined with the basename; otherwise a warning is printed, nothing is
    matched, and the loop over the patterns goes on with the next one. *)
Theorem processPattern_literal pattern w :
  hasGlobChars pattern = false →
  let found := {| absolute := pattern; relative := path.basename pattern |} in
  let w1 := called [SysStat pattern] w in
  let w2 := printed Warn (NoFilesForPattern pattern) w1 in
  (is_file (fs w !! pattern) →
     processPattern minimatch fuel pattern w = (Ret [found], w1)
     ∧ ∀ output wa wb,
         copyFiles [found] output wa = (Ret tt, wb) →
         fs wb !! path.join output (path.basename pattern) = fs wa !! pattern)
  ∧ (¬ is_file (fs w !! pattern) →
     processPattern minimatch fuel pattern w = (Ret [], w2)
     ∧ ∀ rest, gatherAllFiles minimatch fuel (pattern :: rest) w
               = gatherAllFiles minimatch fuel rest w2).
Proof.
  intros Hglob found w1 w2.
  assert (processPattern minimatch fuel pattern w =
          if from_option isFile false (kind_of <$> fs w !! pattern)
          then (Ret [found], w1) else (Ret [], w2)) as Hrun.
  { unfold processPattern. rewrite Hglob. cbn [negb].
    rewrite bind_run, stat_or_null_run.
    by destruct (from_option isFile false (kind_of <$> fs w !! pattern)). }
  split.
  - intros [c Hc]. rewrite Hrun, Hc. split; [done|].
    intros output wa wb (m' & Hcopy & ->)%copyFiles_ret.
    cbn [copy_all_in] in Hcopy.
    destruct (copy_one_in output found (fs wa)) as [e|m1] eqn:E; [done|].
    injection Hcopy as <-.
    rewrite (lookup_copy_one_in _ _ _ _ _ E).
    unfold destination; simpl. by rewrite decide_True.
  - intros Hnot.
    assert (from_option isFile false (kind_of <$> fs w !! pattern) = false) as Hk.
    { destruct (fs w !! pattern) as [[c| |]|]; try done.
      exfalso. apply Hnot. by exists c. }
    rewrite Hk in Hrun. split; [done|].
    intros rest. unfold gatherAllFiles. cbn [for_of].
    by rewrite !bind_run, Hrun.
Qed.


(** C8: when the patterns of a pass match nothing at all, the pass prints
    the error line and exits with code 1; up to there it has only read the
    file system, so nothing was copied. *)
Theorem processAllPatterns_no_match outputDir patterns w w1 :
  gatherAllFiles minimatch fuel patterns w = (Ret [], w1) →
  processAllPatterns minimatch fuel outputDir patterns w
    = (Exit 1, printed Error NoFilesMatched w1)
  ∧ fs w1 = fs w
  ∧ ∃ calls, journal w1 = journal w ++ calls ∧ forallb is_read calls = true.
Proof.
  intros Hg. split.
  - by rewrite processAllPatterns_run, Hg.
  - pose proof (observes_gatherAllFiles minimatch fuel patterns w) as Ho.
    rewrite Hg in Ho. destruct Ho as (? & ? & ?). done.
Qed.

(** A pass that does not starve returns, throws, or exits with code 1, and
    leaves the watchers as they are. *)
Lemma processAllPatterns_watchers outputDir patterns w :
  watchers (processAllPatterns minimatch fuel outputDir patterns w).2 = watchers w.
Proof.
  rewrite processAllPatterns_run.
  pose proof (observes_gatherAllFiles minimatch fuel patterns w) as (_ & Hw & _).
  destruct (gatherAllFiles minimatch fuel patterns w) as [[all|e|c|] w1];
    simpl in *; try done.
  case_bool_decide; [done|].
  pose proof (copyFiles_run all outputDir w1) as Hc.
  destruct (copy_all_in outputDir all (fs w1)) as [e|m'].
  - destruct Hc as (w' & -> & _ & Hw'). simpl. congruence.
  - rewrite Hc. done.
Qed.

End Passes.

(** ** The watch session *)

Section Session.
Context {P : path.api}.
Variable minimatch : string → string → MinimatchOptions → bool.
Variable fuel : nat.
Variable outputDir : string.
Variable patterns : list string.

Local Abbreviation pass := (processAllPatterns minimatch fuel outputDir patterns).
Local Abbreviation timed := (debounced minimatch fuel outputDir patterns).

(** The timer callback catches what the pass throws, and nothing else. *)
Lemma debounced_run w :
  timed w =
  match pass w with
  | (Throw e, w') => (Ret tt, printed Error (ErrorDuringCopy e) w')
  | r => r
  end.
Proof. reflexivity. Qed.

(** C2, amended: in watch mode every exception a debounce-triggered pass
    throws is caught and logged, and the session goes on: the process has not
    exited and its watchers are still registered. A pass whose patterns match
    nothing is different: it calls [process.exit(1)], which no handler
    catches, and the process ends. *)
Theorem debounced_pass_failure (s : session) t :
  exited s = None →
  t ∈ timers s →
  (∀ e w', pass (process s) = (Throw e, w') →
     exited (fire timed t s) = None
     ∧ process (fire timed t s) = printed Error (ErrorDuringCopy e) w'
     ∧ watchers (process (fire timed t s)) = watchers (process s)
     ∧ passes (fire timed t s) = S (passes s))
  ∧ (∀ w1, gatherAllFiles minimatch fuel patterns (process s) = (Ret [], w1) →
     exited (fire timed t s) = Some 1
     ∧ process (fire timed t s) = printed Error NoFilesMatched w1).
Proof.
  intros Hrun Ht. unfold fire. rewrite Hrun, bool_decide_eq_true_2 by done.
  rewrite debounced_run. split.
  - intros e w' Hp. rewrite Hp. simpl. split_and!; try done.
    pose proof (processAllPatterns_watchers minimatch fuel outputDir patterns
                  (process s)) as Hw.
    by rewrite Hp in Hw.
  - intros w1 Hg. by rewrite processAllPatterns_run, Hg.
Qed.

End Session.

Lemma filter_cleared (id due : nat) :
  filter (λ t : nat * nat, t.1 ≠ id) [(id, due)] = [].
Proof. rewrite filter_cons_False; [done|]. simpl. by intros H. Qed.

Lemma last_cons_default {A} (l : list A) a d :
  List.last (a :: l) d = List.last l a.
Proof.
  revert a d. induction l as [|b l IH]; intros a d; [done|].
  change (List.last (a :: b :: l) d) with (List.last (b :: l) d).
  rewrite IH. symmetry. apply IH.
Qed.

Section Debounce.

Variable callback : M unit.

(** While the timer set at [t] is pending, a change before it is due clears
    it and sets the next one; no pass runs. *)
Lemma change_rearms s id t now :
  exited s = None → watchers (process s) ≠ [] →
  timers s = [(id, t + 100)] → debounceTimer s = Some id →
  clock s = t → t ≤ now → now < t + 100 →
  let s' := change callback now s in
  exited s' = None ∧ process s' = process s
  ∧ timers s' = [(nextTimer s, now + 100)] ∧ debounceTimer s' = Some (nextTimer s)
  ∧ clock s' = now ∧ passes s' = passes s.
Proof.
  intros He Hw Ht Hd Hc Hle Hlt. unfold change, advance.
  rewrite Ht. cbn [foldl snd].
  rewrite bool_decide_eq_false_2 by lia. cbn [exited process].
  rewrite He, bool_decide_eq_false_2 by done.
  unfold handleFileChange. cbn [debounceTimer]. rewrite Hd.
  unfold clearTimeout, setTimeout. cbn. rewrite Ht.
  rewrite filter_cleared.
  rewrite Hc, !Nat.max_r by lia. done.
Qed.

(** The first change of a burst sets the timer. *)
Lemma change_arms s now :
  exited s = None → watchers (process s) ≠ [] →
  timers s = [] → clock s ≤ now →
  let s' := change callback now s in
  exited s' = None ∧ process s' = process s
  ∧ timers s' = [(nextTimer s, now + 100)] ∧ debounceTimer s' = Some (nextTimer s)
  ∧ clock s' = now ∧ passes s' = passes s.
Proof.
  intros He Hw Ht Hc. unfold change, advance.
  rewrite Ht. cbn [foldl exited process].
  rewrite He, bool_decide_eq_false_2 by done.
  unfold handleFileChange. cbn [debounceTimer].
  assert (∀ s0 : session, timers s0 = [] → clock s0 = now →
            timers (setTimeout 100 s0) = [(nextTimer s0, now + 100)]) as Hset.
  { intros s0 H0 H1. unfold setTimeout. cbn. by rewrite H0, H1. }
  destruct (debounceTimer s) as [stale|]; cbn.
  - rewrite Ht, filter_nil, !Nat.max_r by lia. done.
  - rewrite Ht, !Nat.max_r by lia. done.
Qed.

Lemma changes_rearm times : ∀ s id t,
  exited s = None → watchers (process s) ≠ [] →
  timers s = [(id, t + 100)] → debounceTimer s = Some id →
  clock s = t → rapid 100 t times →
  let s' := changes callback times s in
  exited s' = None ∧ process s' = process s
  ∧ (∃ id', timers s' = [(id', List.last times t + 100)])
  ∧ passes s' = passes s.
Proof.
  induction times as [|now times IH]; intros s id t He Hw Ht Hd Hc Hr.
  - simpl. split_and!; try done. by exists id.
  - destruct Hr as (Hle & Hlt & Hr).
    destruct (change_rearms s id t now He Hw Ht Hd Hc Hle Hlt)
      as (He' & Hp' & Ht' & Hd' & Hc' & Hk').
    specialize (IH (change callback now s) _ now He'
                  ltac:(by rewrite Hp') Ht' Hd' Hc' Hr).
    cbn [changes foldl]. fold (changes callback times (change callback now s)).
    destruct IH as (? & ? & [id' Hid] & ?).
    split_and!; try congruence.
    exists id'. by rewrite Hid, last_cons_default.
Qed.

(** A pending timer is left alone until it is due, and then runs the
    callback once. *)
Lemma advance_pending s id due now :
  timers s = [(id, due)] → now < due →
  passes (advance callback now s) = passes s.
Proof.
  intros Ht Hlt. unfold advance. rewrite Ht. cbn [foldl snd].
  by rewrite bool_decide_eq_false_2 by lia.
Qed.

Lemma advance_due s id due now :
  exited s = None → timers s = [(id, due)] → due ≤ now →
  passes (advance callback now s) = S (passes s)
  ∧ timers (advance callback now s) = [].
Proof.
  intros He Ht Hle. unfold advance. rewrite Ht. cbn [foldl snd].
  rewrite bool_decide_eq_true_2 by lia. unfold fire.
  rewrite He, bool_decide_eq_true_2 by (rewrite Ht; left).
  destruct (callback (process s)) as [r w]. cbn [passes timers].
  rewrite Ht. cbn [fst]. by rewrite filter_cleared.
Qed.

(** C9: changes that follow one another by less than the 100 ms of the
    debounce are coalesced. Each clears the pending timer and sets a new one,
    so after a burst, however long, one timer is pending, due 100 ms after the
    last change; no pass runs before that, and exactly one has run once that
    time is reached. *)
Theorem debounce_coalesces s first times :
  exited s = None →
  watchers (process s) ≠ [] →
  timers s = [] →
  clock s ≤ first →
  rapid 100 first times →
  let s' := changes callback (first :: times) s in
  let quiet := List.last times first + 100 in
  passes s' = passes s
  ∧ (∃ id, timers s' = [(id, quiet)])
  ∧ (∀ now, now < quiet → passes (advance callback now s') = passes s)
  ∧ (∀ now, quiet ≤ now →
       passes (advance callback now s') = S (passes s)
       ∧ timers (advance callback now s') = []).
Proof.
  intros He Hw Ht Hc Hr s' quiet.
  destruct (change_arms s first He Hw Ht Hc) as (He1 & Hp1 & Ht1 & Hd1 & Hc1 & Hk1).
  destruct (changes_rearm times (change callback first s) _ first He1
              ltac:(by rewrite Hp1) Ht1 Hd1 Hc1 Hr)
    as (He2 & Hp2 & [id Hid] & Hk2).
  change (changes callback times (change callback first s)) with s' in *.
  split_and!.
  - congruence.
  - by exists id.
  - intros now Hnow. rewrite <- Hk1, <- Hk2. by eapply advance_pending.
  - intros now Hnow. rewrite <- Hk1, <- Hk2. by eapply advance_due.
Qed.

End Debounce.

(** ** The recursive file finder *)

Section Finder.
Context {P : path.api}.
Variable minimatch : string → string → MinimatchOptions → bool.

Lemma below_inv m dir p k :
  below m dir p k ↔
  ∃ e, e ∈ entries_of m dir
       ∧ ((p = path.join dir (name e) ∧ k = dkind e)
          ∨ (dkind e = KDir ∧ below m (path.join dir (name e)) p k)).
Proof.
  split.
  - intros H. inversion H; subst; eexists; split; eauto.
  - intros (e & He & [[-> ->]|[Hk Hb]]).
    + by constructor.
    + by eapply below_deeper.
Qed.

Lemma walked_entry m dir e d :
  e ∈ entries_of m dir → dkind e = KDir →
  walked m (path.join dir (name e)) d → walked m dir d.
Proof.
  intros He Hk [->|Hb]; right.
  - rewrite <- Hk. by constructor.
  - by eapply below_deeper.
Qed.

Lemma isDirectory_KDir k : isDirectory k = true ↔ k = KDir.
Proof. by destruct k. Qed.

Lemma isFile_KFile k : isFile k = true ↔ k = KFile.
Proof. by destruct k. Qed.

Section Walk.

Variables (m : gmap string node) (pattern baseDir : string) (n : nat).

Hypothesis walk_deeper : ∀ dir w,
  fs w = m → shallow m n dir = true →
  walk_result minimatch m pattern baseDir dir
    (findFiles minimatch n dir pattern baseDir w).1.

(** The loop of [findFiles] over the entries of [dir]. *)
Lemma findFiles_loop dir entries : ∀ results w,
  fs w = m →
  (∀ e, e ∈ entries → dkind e = KDir →
        shallow m n (path.join dir (name e)) = true) →
  match
    for_of entries (λ results entry,
      let fullPath := path.join dir (name entry) in
      let normalizedPath := normalizePath fullPath in
      if isDirectory (dkind entry) then
        subdirResults ← findFiles minimatch n fullPath pattern baseDir;
        mret (results ++ subdirResults)
      else if (isFile (dkind entry)
               && minimatch normalizedPath pattern {| dot := true |})%bool then
        let relativePath := path.relative baseDir fullPath in
        mret (results ++ [{| absolute := fullPath; relative := relativePath |}])
      else mret results) results w
  with
  | (Ret files, _) =>
      (∀ file, file ∈ files ↔
               file ∈ results ∨ ∃ e, e ∈ entries ∧ contributes minimatch m pattern baseDir dir e file)
      ∧ (∀ e d, e ∈ entries → dkind e = KDir →
                walked m (path.join dir (name e)) d →
                ∃ entries', readdir_in d m = inr entries')
  | (Throw err, _) =>
      ∃ e d, e ∈ entries ∧ dkind e = KDir
             ∧ walked m (path.join dir (name e)) d ∧ readdir_in d m = inl err
  | (Exit _, _) | (Starved, _) => False
  end.
Proof.
  unfold contributes.
  induction entries as [|e entries IH]; intros results w Hw Hsh; cbn [for_of].
  - unfold mret, M_ret. split.
    + intros file. split; [by left|]. intros [?|(e & He & _)]; [done|].
      by apply elem_of_nil in He.
    + intros e d He. by apply elem_of_nil in He.
  - rewrite bind_run.
    assert (∀ e', e' ∈ entries → dkind e' = KDir →
                  shallow m n (path.join dir (name e')) = true) as Hsh'
      by (intros; apply Hsh; [by right|done]).
    destruct (isDirectory (dkind e)) eqn:Hd.
    + apply isDirectory_KDir in Hd.
      pose proof (walk_deeper (path.join dir (name e)) w Hw
                    (Hsh e ltac:(left) Hd)) as Hsub.
      pose proof (observes_findFiles minimatch n (path.join dir (name e))
                    pattern baseDir w) as (Hfs & _).
      rewrite bind_run.
      destruct (findFiles minimatch n (path.join dir (name e)) pattern baseDir w)
        as [[sub|err|c|] w1]; simpl in Hsub, Hfs; try done.
      * unfold mret at 1, M_ret at 1.
        specialize (IH (results ++ sub) w1 ltac:(congruence) Hsh').
        destruct (for_of entries _ (results ++ sub) w1) as [[files|err|c|] w2];
          try done.
        -- destruct IH as [IHf IHd]. destruct Hsub as [Hsubf Hsubd]. split.
           ++ intros file. rewrite IHf, elem_of_app, Hsubf. split.
              ** intros [[?|Hm]|(e' & He' & Hc)]; [by left| |].
                 --- right. exists e. split; [left|]. by left.
                 --- right. exists e'. split; [by right|done].
              ** intros [?|(e' & [->|He']%elem_of_cons & Hc)]; [by left;left| |].
                 --- destruct Hc as [[_ Hm]|[Hk _]]; [by left; right|congruence].
                 --- right. by exists e'.
           ++ intros e' d [->|He']%elem_of_cons Hk Hwalk; [by apply Hsubd|].
              by eapply IHd.
        -- destruct IH as (e' & d & He' & Hk & Hwalk & Herr).
           exists e', d. split_and!; try done. by right.
      * destruct Hsub as (d & Hwalk & Herr). exists e, d. split_and!; try done. left.
    + assert (dkind e ≠ KDir) as Hnd by (rewrite <- isDirectory_KDir; congruence).
      destruct (isFile (dkind e) && minimatch _ pattern _)%bool eqn:Hf.
      * apply andb_true_iff in Hf as [Hk%isFile_KFile Hmatch].
        unfold mret at 1, M_ret at 1.
        specialize (IH (results ++ [{| absolute := path.join dir (name e);
            relative := path.relative baseDir (path.join dir (name e)) |}])
          w Hw Hsh').
        destruct (for_of entries _ _ w) as [[files|err|c|] w2]; try done.
        -- destruct IH as [IHf IHd]. split.
           ++ intros file. rewrite IHf, elem_of_app, list_elem_of_singleton. split.
              ** intros [[?| ->]|(e' & He' & Hc)]; [by left| |].
                 --- right. exists e. split; [left|]. by right.
                 --- right. exists e'. split; [by right|done].
              ** intros [?|(e' & [->|He']%elem_of_cons & Hc)]; [by left;left| |].
                 --- destruct Hc as [[? _]|(_ & _ & ->)]; [done|by left; right].
                 --- right. by exists e'.
           ++ intros e' d [->|He']%elem_of_cons Hk' Hwalk; [done|]. by eapply IHd.
        -- destruct IH as (e' & d & He' & Hk' & Hwalk & Herr).
           exists e', d. split_and!; try done. by right.
      * unfold mret at 1, M_ret at 1.
        specialize (IH results w Hw Hsh').
        destruct (for_of entries _ _ w) as [[files|err|c|] w2]; try done.
        -- destruct IH as [IHf IHd]. split.
           ++ intros file. rewrite IHf. split.
              ** intros [?|(e' & He' & Hc)]; [by left|].
                 right. exists e'. split; [by right|done].
              ** intros [?|(e' & [->|He']%elem_of_cons & Hc)]; [by left| |].
                 --- destruct Hc as [[? _]|(Hk & Hm & _)]; [done|].
                     apply isFile_KFile in Hk. by rewrite Hk, Hm in Hf.
                 --- right. by exists e'.
           ++ intros e' d [->|He']%elem_of_cons Hk' Hwalk; [done|]. by eapply IHd.
        -- destruct IH as (e' & d & He' & Hk' & Hwalk & Herr).
           exists e', d. split_and!; try done. by right.
Qed.

End Walk.

(** With fuel for the depth of the tree, [findFiles] ends as [walk_result]
    says. *)
Lemma findFiles_walk m pattern baseDir n : ∀ dir w,
  fs w = m → shallow m n dir = true →
  walk_result minimatch m pattern baseDir dir
    (findFiles minimatch n dir pattern baseDir w).1.
Proof.
  induction n as [|n IH]; intros dir w Hw Hsh; [done|].
  cbn [findFiles]. rewrite bind_run. unfold readdir. rewrite fs_read_run, Hw.
  destruct (readdir_in dir m) as [err|entries] eqn:Hread.
  - simpl. exists dir. split; [by left|done].
  - assert (entries = entries_of m dir) as ->.
    { unfold readdir_in in Hread. by destruct (m !! dir) as [[|[]|]|]; simplify_eq. }
    cbn [shallow] in Hsh. rewrite forallb_forall in Hsh.
    pose proof (findFiles_loop m pattern baseDir n IH dir (entries_of m dir) []
                  (called [SysReaddir dir] w) Hw) as Hloop.
    destruct (for_of (entries_of m dir) _ [] (called [SysReaddir dir] w))
      as [[files|e|c|] w1]; simpl.
    + destruct Hloop as [Hf Hd].
      { intros e He Hk. specialize (Hsh e). rewrite Hk in Hsh. apply Hsh.
        by apply list_elem_of_In. }
      split.
      * intros file. rewrite Hf. unfold matching_below. split.
        -- intros [Hin|(e & He & [[Hk (p & Hb & Hm & ->)]|(Hk & Hm & ->)])].
           ++ by apply elem_of_nil in Hin.
           ++ exists p. split_and!; try done. by eapply below_deeper.
           ++ eexists. split_and!; try done. rewrite <- Hk. by constructor.
        -- intros (p & Hb & Hm & ->). right.
           apply below_inv in Hb as (e & He & [[-> Hk]|[Hk Hb]]); exists e.
           ++ split; [done|]. by right.
           ++ split; [done|]. left. split; [done|]. by exists p.
      * intros d [->|Hb]; [by eexists|].
        apply below_inv in Hb as (e & He & [[-> Hk]|[Hk Hb]]).
        -- eapply Hd; [done|done|by left].
        -- eapply Hd; [done|done|by right].
    + destruct Hloop as (e' & d & He' & Hk' & Hwalk & Herr).
      { intros e0 He Hk. specialize (Hsh e0). rewrite Hk in Hsh. apply Hsh.
        by apply list_elem_of_In. }
      exists d. split; [by eapply walked_entry|done].
    + apply Hloop. intros e0 He Hk. specialize (Hsh e0). rewrite Hk in Hsh.
      apply Hsh. by apply list_elem_of_In.
    + apply Hloop. intros e0 He Hk. specialize (Hsh e0). rewrite Hk in Hsh.
      apply Hsh. by apply list_elem_of_In.
Qed.

(** C5: given fuel for the depth of the tree, [findFiles] ends in one of
    two ways. Either it returns, and then every directory below [dir] was
    read and the result holds exactly the regular files below [dir] whose
    normalised path [minimatch] accepts with the option [dot] set, each with
    its path relative to [baseDir]; or it throws, and then the error is the
    one [readdir] gave for [dir] or for a directory below it. *)
Theorem findFiles_exact n dir pattern baseDir w :
  shallow (fs w) n dir = true →
  match findFiles minimatch n dir pattern baseDir w with
  | (Ret files, _) =>
      (∀ file,
         file ∈ files ↔
         ∃ p, below (fs w) dir p KFile
              ∧ minimatch (normalizePath p) pattern {| dot := true |} = true
              ∧ file = {| absolute := p; relative := path.relative baseDir p |})
      ∧ (∀ d, walked (fs w) dir d → ∃ entries, readdir_in d (fs w) = inr entries)
  | (Throw e, _) => ∃ d, walked (fs w) dir d ∧ readdir_in d (fs w) = inl e
  | (Exit _, _) | (Starved, _) => False
  end.
Proof.
  intros Hsh.
  pose proof (findFiles_walk (fs w) pattern baseDir n dir w eq_refl Hsh) as H.
  by destruct (findFiles minimatch n dir pattern baseDir w) as [[files|e|c|] w'].
Qed.

End Finder.

(** ** A pass ends *)

Section Ending.
Context {P : path.api}.
Variable minimatch : string → string → MinimatchOptions → bool.
Variable fuel : nat.

Lemma processPattern_ends pattern w :
  (hasGlobChars pattern = true →
   shallow (fs w) fuel (findGlobBase pattern) = true) →
  ended (processPattern minimatch fuel pattern w).1.
Proof.
  intros Hsh. unfold processPattern.
  destruct (hasGlobChars pattern); cbn [negb].
  - rewrite bind_run, stat_or_null_run.
    destruct (negb _); [done|].
    pose proof (findFiles_walk minimatch (fs w) (normalizePath pattern)
                  (findGlobBase pattern) fuel (findGlobBase pattern)
                  (called [SysStat (findGlobBase pattern)] w) eq_refl (Hsh eq_refl))
      as Hwalk.
    by destruct (findFiles _ _ _ _ _ _) as [[files|e|c|] w'].
  - rewrite bind_run, stat_or_null_run.
    by destruct (from_option isFile false _).
Qed.

(** With fuel for the tree below the base directory of every glob pattern,
    gathering the matches returns or throws. *)
Lemma gatherAllFiles_ends patterns w :
  (∀ pattern, pattern ∈ patterns → hasGlobChars pattern = true →
     shallow (fs w) fuel (findGlobBase pattern) = true) →
  ended (gatherAllFiles minimatch fuel patterns w).1.
Proof.
  unfold gatherAllFiles. generalize (@nil MatchedFile) as acc. revert w.
  induction patterns as [|p ps IH]; intros w acc Hsh; cbn [for_of]; [done|].
  rewrite bind_run.
  pose proof (processPattern_ends p w (Hsh p ltac:(left))) as Hp.
  pose proof (observes_processPattern minimatch fuel p w) as (Hfs & _).
  rewrite bind_run.
  destruct (processPattern minimatch fuel p w) as [[files|e|c|] w1];
    simpl in Hp, Hfs; try done.
  unfold mret at 1, M_ret at 1. apply IH.
  intros p' Hin. rewrite Hfs. apply Hsh. by right.
Qed.

(** And so does the whole pass, unless it exits for want of matches. *)
Lemma processAllPatterns_ends outputDir patterns w :
  (∀ pattern, pattern ∈ patterns → hasGlobChars pattern = true →
     shallow (fs w) fuel (findGlobBase pattern) = true) →
  match (processAllPatterns minimatch fuel outputDir patterns w).1 with
  | Ret _ | Throw _ | Exit 1 => True
  | Exit _ | Starved => False
  end.
Proof.
  intros Hsh. rewrite processAllPatterns_run.
  pose proof (gatherAllFiles_ends patterns w Hsh) as Hg.
  destruct (gatherAllFiles minimatch fuel patterns w) as [[all|e|c|] w1];
    simpl in Hg; try done.
  case_bool_decide; [done|].
  pose proof (copyFiles_run all outputDir w1) as Hc.
  destruct (copy_all_in outputDir all (fs w1)) as [e|m'].
  - by destruct Hc as (w' & -> & _).
  - by rewrite Hc.
Qed.

End Ending.

(** ** The copier *)

Section Copier.
Context {P : path.api}.

(** A round keeps the directories as they are and the files files. *)
Lemma copy_one_in_dir output file m m' p :
  copy_one_in output file m = inr m' → is_dir (m !! p) → m' !! p = m !! p.
Proof.
  intros Hc [r Hp]. rewrite (lookup_copy_one_in _ _ _ _ _ Hc).
  apply copy_one_in_inr in Hc as (Hun & HsL & HtL & Ht & c & Hs & ->).
  destruct (decide (p = _)) as [->|Hne].
  - destruct Ht as [Ht|[c' Ht]]; congruence.
  - destruct (decide (p ∈ _)); [|done]. by rewrite Hp.
Qed.

Lemma copy_one_in_file output file m m' p :
  copy_one_in output file m = inr m' → is_file (m !! p) → is_file (m' !! p).
Proof.
  intros Hc [c0 Hp]. rewrite (lookup_copy_one_in _ _ _ _ _ Hc).
  apply copy_one_in_inr in Hc as (Hun & HsL & HtL & Ht & c & Hs & ->).
  destruct (decide (p = _)) as [->|Hne]; [by exists c|].
  destruct (decide (p ∈ _)) as [Hin|]; [|by exists c0].
  rewrite Hp. by exists c0.
Qed.

Lemma copy_all_in_dir output files : ∀ m m' p,
  copy_all_in output files m = inr m' → is_dir (m !! p) → m' !! p = m !! p.
Proof.
  induction files as [|f files IH]; intros m m' p Hc Hp; cbn [copy_all_in] in Hc.
  - by injection Hc as <-.
  - destruct (copy_one_in output f m) as [e|m1] eqn:E; [done|].
    rewrite (IH _ _ _ Hc); [by eapply copy_one_in_dir|].
    by rewrite (copy_one_in_dir _ _ _ _ _ E Hp).
Qed.

Lemma copy_all_in_file output files : ∀ m m' p,
  copy_all_in output files m = inr m' → is_file (m !! p) → is_file (m' !! p).
Proof.
  induction files as [|f files IH]; intros m m' p Hc Hp; cbn [copy_all_in] in Hc.
  - by injection Hc as <-.
  - destruct (copy_one_in output f m) as [e|m1] eqn:E; [done|].
    eapply IH; [done|]. by eapply copy_one_in_file.
Qed.

(** After its round a file is at its destination, in a directory. *)
Lemma copy_one_in_lands output file m m' :
  copy_one_in output file m = inr m' →
  is_file (m' !! destination output file)
  ∧ is_dir (m' !! path.dirname (destination output file)).
Proof.
  intros Hc. rewrite !(lookup_copy_one_in _ _ _ _ _ Hc).
  apply copy_one_in_inr in Hc as (Hun & HsL & HtL & Ht & c & Hs & ->).
  rewrite decide_True by done. split; [by exists c|].
  assert (path.dirname (destination output file)
          ∈ lineage (path.dirname (destination output file))) as Hin by left.
  rewrite decide_False by (intros Heq; apply HtL; congruence).
  rewrite decide_True by done.
  destruct (unobstructed_dir m _ (Hun _ Hin)) as [->|[r ->]]; by eexists.
Qed.

Lemma copy_all_in_lands output files : ∀ m m' file,
  copy_all_in output files m = inr m' → file ∈ files →
  is_file (m' !! destination output file)
  ∧ is_dir (m' !! path.dirname (destination output file)).
Proof.
  induction files as [|f files IH]; intros m m' file Hc Hin; cbn [copy_all_in] in Hc.
  - by apply elem_of_nil in Hin.
  - destruct (copy_one_in output f m) as [e|m1] eqn:E; [done|].
    apply elem_of_cons in Hin as [->|Hin]; [|by eapply IH].
    destruct (copy_one_in_lands _ _ _ _ E) as [Hf Hd]. split.
    + by eapply copy_all_in_file.
    + by rewrite (copy_all_in_dir _ _ _ _ _ Hc Hd).
Qed.

(** A file that no later round has as its destination stays as it is. *)
Lemma copy_all_in_untouched output files : ∀ m m' p,
  copy_all_in output files m = inr m' →
  (∀ g, g ∈ files → destination output g ≠ p) →
  is_file (m !! p) → m' !! p = m !! p.
Proof.
  induction files as [|f files IH]; intros m m' p Hc Hne Hp; cbn [copy_all_in] in Hc.
  - by injection Hc as <-.
  - destruct (copy_one_in output f m) as [e|m1] eqn:E; [done|].
    assert (m1 !! p = m !! p) as H1.
    { rewrite (lookup_copy_one_in _ _ _ _ _ E).
      rewrite decide_False by (by intros ->; eapply Hne; [left|]).
      destruct (decide (p ∈ _)); [|done]. destruct Hp as [c ->]. done. }
    rewrite <- H1. eapply IH; [done| |by rewrite H1].
    intros g Hg. apply Hne. by right.
Qed.

(** When no source is a destination, every destination ends with the
    content of the source of some file that has this destination. *)
Lemma copy_all_in_content output files : ∀ m m',
  copy_all_in output files m = inr m' →
  (∀ g h, g ∈ files → h ∈ files → absolute g ≠ destination output h) →
  ∀ file, file ∈ files →
    ∃ g, g ∈ files ∧ destination output g = destination output file
         ∧ m' !! destination output file = m !! absolute g.
Proof.
  induction files as [|f files IH]; intros m m' Hc Hdisj file Hin;
    cbn [copy_all_in] in Hc.
  - by apply elem_of_nil in Hin.
  - destruct (copy_one_in output f m) as [e|m1] eqn:E; [done|].
    assert (∀ file, file ∈ files →
              ∃ g, g ∈ f :: files ∧ destination output g = destination output file
                   ∧ m' !! destination output file = m !! absolute g) as Hlater.
    { intros file' Hin'.
      destruct (IH m1 m' Hc ltac:(intros; apply Hdisj; by right) file' Hin')
        as (g & Hg & Hd & Hm).
      exists g. split_and!; [by right|done|].
      rewrite Hm, (lookup_copy_one_in _ _ _ _ _ E).
      rewrite decide_False by (apply Hdisj; [by right|left]).
      destruct (decide (absolute g ∈ _)); [|done].
      destruct (m !! absolute g) eqn:Hg0; [done|]. exfalso.
      destruct (copy_all_in_lands _ _ _ _ file' Hc Hin') as [[c Hf] _].
      rewrite Hm, (lookup_copy_one_in _ _ _ _ _ E) in Hf.
      rewrite decide_False in Hf by (apply Hdisj; [by right|left]).
      rewrite decide_True, Hg0 in Hf by done. done. }
    apply elem_of_cons in Hin as [->|Hin]; [|by apply Hlater].
    destruct (decide (Exists (λ g, destination output g = destination output f) files))
      as [Hex|Hnex].
    + apply Exists_exists in Hex as (g & Hg & Hd).
      destruct (Hlater g Hg) as (g' & Hg' & Hd' & Hm).
      exists g'. split_and!; [done|congruence|]. by rewrite <- Hd.
    + exists f. split_and!; [left|done|].
      rewrite (copy_all_in_untouched _ _ _ _ _ Hc).
      * rewrite (lookup_copy_one_in _ _ _ _ _ E). by rewrite decide_True.
      * intros g Hg Hd. apply Hnex. apply Exists_exists. by exists g.
      * by destruct (copy_one_in_lands _ _ _ _ E).
Qed.



End Copier.

(** ** From the pattern to the destination *)

Lemma for_of_invariant {A S} (I : S → Prop) (l : list A) (body : S → A → M S) :
  (∀ s x w s' w', I s → body s x w = (Ret s', w') → I s') →
  ∀ s w s' w', I s → for_of l body s w = (Ret s', w') → I s'.
Proof.
  intros Hbody. induction l as [|x l IH]; intros s w s' w' Hs; cbn [for_of].
  - by intros [= <- <-].
  - rewrite bind_run. destruct (body s x w) as [[s1|e|c|] w1] eqn:E; try done.
    intros Hrest. eapply IH; [|done]. by eapply Hbody.
Qed.

Section Placement.
Context {P : path.api}.
Variable minimatch : string → string → MinimatchOptions → bool.
Variable fuel : nat.

(** Every match carries its path relative to [baseDir]. *)
Lemma findFiles_relative pattern baseDir n : ∀ dir w files w',
  findFiles minimatch n dir pattern baseDir w = (Ret files, w') →
  ∀ file, file ∈ files → relative file = path.relative baseDir (absolute file).
Proof.
  induction n as [|n IH]; intros dir w files w'; [done|].
  cbn [findFiles]. rewrite bind_run.
  destruct (readdir dir w) as [[entries|e|c|] w1]; try done.
  apply (for_of_invariant
    (λ results : list MatchedFile, ∀ file, file ∈ results →
       relative file = path.relative baseDir (absolute file))).
  - intros results entry w2 results' w3 Hres.
    destruct (isDirectory (dkind entry)).
    + rewrite bind_run.
      destruct (findFiles minimatch n _ pattern baseDir w2)
        as [[sub|e|c|] w4] eqn:E; try done.
      intros [= <- <-] file [?|?]%elem_of_app; [by apply Hres|by eapply IH].
    + destruct (_ && _)%bool.
      * intros [= <- <-] file [?| ->%list_elem_of_singleton]%elem_of_app;
          [by apply Hres|done].
      * by intros [= <- <-].
  - intros file Hin. by apply elem_of_nil in Hin.
Qed.

Lemma processPattern_relative pattern w files w1 :
  hasGlobChars pattern = true →
  processPattern minimatch fuel pattern w = (Ret files, w1) →
  ∀ file, file ∈ files →
    relative file = path.relative (findGlobBase pattern) (absolute file).
Proof.
  intros Hglob. unfold processPattern. rewrite Hglob. cbn [negb].
  rewrite bind_run, stat_or_null_run.
  destruct (negb _).
  - rewrite bind_run. intros [= <- <-] file Hin. by apply elem_of_nil in Hin.
  - apply findFiles_relative.
Qed.

(** C3: a file matched by a glob pattern has as relative path its path
    relative to the base directory of the pattern. The copier then makes the
    directory of [output] joined with that relative path, with the missing
    directories above it, and copies the file there: after a pass the
    destination is a regular file in a directory, and holds the content of
    the source when no source is itself a destination. *)
Theorem matched_files_keep_their_place pattern output w files w1 w2 :
  hasGlobChars pattern = true →
  processPattern minimatch fuel pattern w = (Ret files, w1) →
  copyFiles files output w1 = (Ret tt, w2) →
  ∀ file, file ∈ files →
    relative file = path.relative (findGlobBase pattern) (absolute file)
    ∧ destination output file = path.join output (relative file)
    ∧ is_file (fs w2 !! destination output file)
    ∧ is_dir (fs w2 !! path.dirname (destination output file))
    ∧ (∃ before after,
         journal w2 =
         before ++ [SysMkdir (path.dirname (destination output file));
                    SysCopyFile (absolute file) (destination output file)] ++ after)
    ∧ ((∀ g h, g ∈ files → h ∈ files → absolute g ≠ destination output h) →
       ∃ g, g ∈ files ∧ destination output g = destination output file
            ∧ fs w2 !! destination output file = fs w1 !! absolute g).
Proof.
  intros Hglob Hp (m' & Hc & ->)%copyFiles_ret file Hin. split_and!.
  - by eapply processPattern_relative.
  - done.
  - by eapply copy_all_in_lands.
  - by eapply copy_all_in_lands.
  - apply list_elem_of_split in Hin as (l1 & l2 & ->).
    exists (journal w1 ++ flat_map (copy_calls output) l1),
           (flat_map (copy_calls output) l2).
    simpl. rewrite flat_map_app. simpl. by rewrite <- !app_assoc.
  - intros Hdisj. by eapply copy_all_in_content.
Qed.



End Placement.

(** * Further properties of the script *)

(** ** The separator and the wildcards *)

Lemma join_split_replace c d s :
  Str.join_with (String d "") (Str.split c s) = replace_char c d s.
Proof.
  induction s as [|a s IH]; simpl; [done|].
  destruct (Ascii.eqb a c).
  - rewrite join_with_cons by apply split_nonempty. simpl. by rewrite IH.
  - pose proof (split_nonempty c s) as Hs.
    destruct (Str.split c s) as [|w ws] eqn:E; [done|].
    destruct ws as [|w' ws]; simpl in *; by rewrite <- IH.
Qed.

Lemma search_glob_replace c d s :
  Str.is_glob_char c = false → Str.is_glob_char d = false →
  Str.search_glob (replace_char c d s) = Str.search_glob s.
Proof.
  intros Hc Hd. induction s as [|a s IH]; simpl; [done|].
  destruct (Ascii.eqb_spec a c) as [->|Hne].
  - by rewrite Hc, Hd, IH.
  - by rewrite IH.
Qed.

Section Normalised.
Context {P : path.api}.

(** X1: [normalizePath] replaces every [path.sep] by a slash and changes
    nothing else: the length stays, and normalising again changes nothing. *)
Theorem normalizePath_replaces filePath :
  normalizePath filePath = replace_char path.sep "/" filePath
  ∧ String.length (normalizePath filePath) = String.length filePath
  ∧ normalizePath (normalizePath filePath) = normalizePath filePath.
Proof.
  unfold normalizePath. rewrite !join_split_replace.
  split; [done|]. split.
  - induction filePath as [|a s IH]; simpl; [done|]. by rewrite IH.
  - induction filePath as [|a s IH]; simpl; [done|]. rewrite IH. f_equal.
    destruct (Ascii.eqb_spec a path.sep) as [->|Hne].
    + by destruct (Ascii.eqb "/" path.sep).
    + by rewrite (proj2 (Ascii.eqb_neq a path.sep) Hne).
Qed.

(** X2: on a platform whose separator is not a wildcard character, the
    classification of the raw pattern and the search in the normalised
    pattern agree. *)
Theorem search_glob_normalizePath pattern :
  Str.is_glob_char path.sep = false →
  Str.search_glob (normalizePath pattern) = Str.search_glob pattern
  ∧ (hasGlobChars pattern = true →
     ∃ index, Str.search_glob (normalizePath pattern) = Some index).
Proof.
  intros Hsep. unfold normalizePath.
  rewrite join_split_replace, search_glob_replace by done.
  split; [done|]. unfold hasGlobChars.
  destruct (Str.search_glob pattern); [by eexists|done].
Qed.

Lemma append_cons a x r : String a x +:+ r = String a (x +:+ r).
Proof. reflexivity. Qed.

Lemma slice0_app n s : ∃ rest, s = Str.slice0 n s +:+ rest.
Proof.
  unfold Str.slice0. revert n. induction s as [|a s IH]; intros n.
  - exists "". by destruct n.
  - destruct n as [|n]; simpl.
    + by exists (String a s).
    + destruct (IH n) as (rest & Hr). exists rest. rewrite append_cons. congruence.
Qed.

Lemma search_glob_prefix s n :
  Str.search_glob s = Some n → Str.search_glob (Str.slice0 n s) = None.
Proof.
  unfold Str.slice0. revert n. induction s as [|a s IH]; intros n; simpl; [done|].
  destruct (Str.is_glob_char a) eqn:E.
  - by intros [= <-].
  - destruct (Str.search_glob s) as [k|] eqn:Ek; simpl; [|done].
    intros [= <-]. simpl. rewrite E. by rewrite IH.
Qed.

Lemma search_glob_app_None s t :
  Str.search_glob (s +:+ t) = None → Str.search_glob s = None.
Proof.
  induction s as [|a s IH]; simpl; [done|].
  destruct (Str.is_glob_char a); [done|].
  destruct (Str.search_glob (s +:+ t)) eqn:E; simpl; [done|].
  intros _. by rewrite IH.
Qed.

Lemma lastIndexOf_split c s k :
  Str.lastIndexOf c s = Some k →
  ∃ rest, s = Str.slice0 k s +:+ String c rest.
Proof.
  unfold Str.slice0. revert k. induction s as [|a s IH]; intros k; simpl; [done|].
  destruct (Str.lastIndexOf c s) as [i|] eqn:E.
  - intros [= <-]. destruct (IH i eq_refl) as (rest & Hr). exists rest.
    rewrite append_cons. congruence.
  - destruct (Ascii.eqb_spec a c) as [->|]; [|done]. intros [= <-].
    by exists s.
Qed.

(** X3: when the first wildcard is not at index 0, what [findGlobBase]
    resolves has no wildcard character and is ["."], there being no slash
    before the wildcard, or the part of the normalised pattern before one of
    its slashes. *)
Theorem findGlobBase_resolves_prefix pattern i :
  Str.search_glob (normalizePath pattern) = Some (S i) →
  ∃ prefix,
    findGlobBase pattern = path.resolve prefix
    ∧ hasGlobChars prefix = false
    ∧ ((prefix = "."
        ∧ Str.lastIndexOf "/" (Str.slice0 (S i) (normalizePath pattern)) = None)
       ∨ ∃ rest, normalizePath pattern = prefix +:+ "/" +:+ rest).
Proof.
  intros Hs. unfold findGlobBase. rewrite Hs.
  pose proof (search_glob_prefix _ _ Hs) as Hfree.
  destruct (slice0_app (S i) (normalizePath pattern)) as (tail & Htail).
  set (base := Str.slice0 (S i) (normalizePath pattern)) in *.
  destruct (Str.lastIndexOf "/" base) as [k|] eqn:Hk.
  - exists (Str.slice0 k base). split; [done|].
    destruct (lastIndexOf_split _ _ _ Hk) as (rest & Hrest).
    split.
    + unfold hasGlobChars. rewrite Hrest in Hfree.
      by rewrite (search_glob_app_None _ _ Hfree).
    + right. exists (rest +:+ tail). rewrite Htail at 1. rewrite Hrest at 1.
      clear. generalize (Str.slice0 k base) as x. intros x.
      induction x as [|a x IH]; [done|]. rewrite !append_cons. by rewrite IH.
  - exists ".". split; [done|]. split; [done|]. by left.
Qed.

End Normalised.

(** ** What a pass never does, and where it stops *)

Lemma never_exits_ret {A} (a : A) : never_exits (mret a).
Proof. by intros w. Qed.

Lemma never_exits_bind {A B} (c : M A) (k : A → M B) :
  never_exits c → (∀ a, never_exits (k a)) → never_exits (c ≫= k).
Proof.
  intros Hc Hk w. rewrite bind_run. specialize (Hc w).
  destruct (c w) as [[a| | |] w']; simpl in *; try done. apply Hk.
Qed.

Lemma never_exits_for_of {A S} (l : list A) (body : S → A → M S) s :
  (∀ s x, never_exits (body s x)) → never_exits (for_of l body s).
Proof.
  revert s. induction l as [|x l IH]; intros s Hb; simpl.
  - apply never_exits_ret.
  - apply never_exits_bind; [apply Hb|]. intros s'. by apply IH.
Qed.

Lemma for_of_app_run {A S} (l1 l2 : list A) (body : S → A → M S) s w :
  for_of (l1 ++ l2) body s w =
  match for_of l1 body s w with
  | (Ret s1, w1) => for_of l2 body s1 w1
  | r => r
  end.
Proof.
  revert s w. induction l1 as [|x l1 IH]; intros s w; [done|].
  cbn [app for_of]. rewrite !bind_run.
  destruct (body s x w) as [[s1|e|c|] w1]; [apply IH|done..].
Qed.

Section Failures.
Context {P : path.api}.
Variable minimatch : string → string → MinimatchOptions → bool.
Variable fuel : nat.

Lemma never_exits_fs_read {A} call (f : gmap string node → error + A) :
  never_exits (fs_read call f).
Proof. intros w. rewrite fs_read_run. by destruct (f (fs w)). Qed.

Lemma never_exits_stat_or_null p : never_exits (stat_or_null p).
Proof. intros w. by rewrite stat_or_null_run. Qed.

Lemma never_exits_print to msg : never_exits (console_print to msg).
Proof. by intros w. Qed.

Lemma never_exits_findFiles n dir pattern baseDir :
  never_exits (findFiles minimatch n dir pattern baseDir).
Proof.
  revert dir. induction n as [|n IH]; intros dir; simpl; [by intros w|].
  apply never_exits_bind; [apply never_exits_fs_read|].
  intros entries. apply never_exits_for_of. intros results entry.
  destruct (isDirectory (dkind entry)).
  - apply never_exits_bind; [apply IH|]. intros. apply never_exits_ret.
  - destruct (_ && _)%bool; apply never_exits_ret.
Qed.

Lemma never_exits_processPattern pattern :
  never_exits (processPattern minimatch fuel pattern).
Proof.
  unfold processPattern. destruct (negb (hasGlobChars pattern)).
  - apply never_exits_bind; [apply never_exits_stat_or_null|]. intros st.
    destruct (from_option isFile false st); [apply never_exits_ret|].
    apply never_exits_bind; [apply never_exits_print|]. intros. apply never_exits_ret.
  - apply never_exits_bind; [apply never_exits_stat_or_null|]. intros st.
    destruct (negb _).
    + apply never_exits_bind; [apply never_exits_print|]. intros. apply never_exits_ret.
    + apply never_exits_findFiles.
Qed.

Lemma never_exits_gatherAllFiles patterns :
  never_exits (gatherAllFiles minimatch fuel patterns).
Proof.
  apply never_exits_for_of. intros allFiles pattern.
  apply never_exits_bind; [apply never_exits_processPattern|].
  intros. apply never_exits_ret.
Qed.

(** A pass exits in one way only: with code 1, its patterns having matched
    nothing. *)
Lemma processAllPatterns_exit outputDir patterns w code w' :
  processAllPatterns minimatch fuel outputDir patterns w = (Exit code, w') →
  code = 1
  ∧ ∃ w1, gatherAllFiles minimatch fuel patterns w = (Ret [], w1)
          ∧ w' = printed Error NoFilesMatched w1.
Proof.
  rewrite processAllPatterns_run.
  pose proof (never_exits_gatherAllFiles patterns w) as Hg.
  destruct (gatherAllFiles minimatch fuel patterns w) as [[all|e|c|] w1];
    simpl in Hg; try done.
  case_bool_decide as Hlen.
  - intros [= <- <-]. split; [done|]. exists w1.
    by apply length_zero_iff_nil in Hlen as ->.
  - pose proof (copyFiles_run all outputDir w1) as Hc.
    destruct (copy_all_in outputDir all (fs w1)) as [e|m'].
    + by destruct Hc as (w2 & -> & _).
    + by rewrite Hc.
Qed.

(** X5: a glob pattern whose base directory is missing, or is not a
    directory, gives a warning and no match; no directory is read and the
    loop over the patterns goes on. *)
Theorem processPattern_missing_base pattern w :
  hasGlobChars pattern = true →
  ¬ is_dir (fs w !! findGlobBase pattern) →
  let w' := printed Warn (NoBaseDirectory (findGlobBase pattern) pattern)
              (called [SysStat (findGlobBase pattern)] w) in
  processPattern minimatch fuel pattern w = (Ret [], w')
  ∧ ∀ rest, gatherAllFiles minimatch fuel (pattern :: rest) w
            = gatherAllFiles minimatch fuel rest w'.
Proof.
  intros Hglob Hnot w'.
  assert (processPattern minimatch fuel pattern w = (Ret [], w')) as Hrun.
  { unfold processPattern. rewrite Hglob. cbn [negb].
    rewrite bind_run, stat_or_null_run.
    assert (from_option isDirectory false
              (kind_of <$> fs w !! findGlobBase pattern) = false) as ->; [|done].
    destruct (fs w !! findGlobBase pattern) as [[c|r|]|]; try done.
    exfalso. apply Hnot. by exists r. }
  split; [done|]. intros rest. unfold gatherAllFiles. cbn [for_of].
  by rewrite !bind_run, Hrun.
Qed.

Lemma copyFiles_app ahead behind output w :
  copyFiles (ahead ++ behind) output w =
  match copyFiles ahead output w with
  | (Ret _, w1) => copyFiles behind output w1
  | r => r
  end.
Proof.
  unfold copyFiles. rewrite for_of_app_run.
  by destruct (for_of ahead _ tt w) as [[[]|e|c|] w1].
Qed.

(** [mkdir] leaves what exists as it is. *)
Lemma mkdir_in_keeps dir m m' p n :
  mkdir_in dir m = inr m' → m !! p = Some n → m' !! p = Some n.
Proof.
  intros [_ ->]%mkdir_in_inr Hp. rewrite lookup_ensure_dirs, Hp.
  by destruct (decide _).
Qed.

(** X6: [copyFiles] stops at the first file that cannot be copied: the error
    is thrown, what was copied before stays as it is, and no call is made for
    the files after it. *)
Theorem copyFiles_stops_at_failure ahead file behind output w m1 e :
  copy_all_in output ahead (fs w) = inr m1 →
  copy_one_in output file m1 = inl e →
  ∃ w',
    copyFiles (ahead ++ file :: behind) output w = (Throw e, w')
    ∧ (∀ g, g ∈ ahead →
         is_file (fs w' !! destination output g)
         ∧ fs w' !! destination output g = m1 !! destination output g)
    ∧ ∃ n, n ≤ 2
           ∧ journal w' = journal w ++ flat_map (copy_calls output) ahead
                            ++ take n (copy_calls output file).
Proof.
  intros Hahead Hfile. rewrite copyFiles_app.
  pose proof (copyFiles_run ahead output w) as Hrun. rewrite Hahead in Hrun.
  rewrite Hrun. clear Hrun.
  set (w1 := with_fs m1 (called (flat_map (copy_calls output) ahead) w)).
  unfold copyFiles. cbn [for_of]. rewrite bind_run.
  pose proof (copy_round_run output file w1) as Hr.
  unfold destination in Hr. simpl in Hr. rewrite Hr. clear Hr.
  change (path.join output (relative file)) with (destination output file).
  change (fs w1) with m1. rewrite Hfile.
  eexists. split; [done|]. split.
  - intros g Hg. destruct (copy_all_in_lands _ _ _ _ g Hahead Hg) as [[c Hc] _].
    destruct (mkdir_in _ m1) as [e'|m2] eqn:Hm; simpl.
    + split; [by exists c|done].
    + rewrite (mkdir_in_keeps _ _ _ _ _ Hm Hc). split; [by exists c|done].
  - destruct (mkdir_in _ m1) as [e'|m2]; simpl.
    + exists 1. split; [lia|]. by rewrite <- app_assoc.
    + exists 2. split; [lia|]. by rewrite <- app_assoc.
Qed.

(** X7: whatever its outcome, [copyFiles] removes nothing and turns no file
    into a directory or a directory into a file; a path whose node it changed
    is the destination of one of the files. *)
Theorem copyFiles_keeps files output : ∀ w p n,
  fs w !! p = Some n →
  ∃ n', fs (copyFiles files output w).2 !! p = Some n'
        ∧ kind_of n' = kind_of n
        ∧ (n' ≠ n → ∃ file, file ∈ files ∧ p = destination output file).
Proof.
  unfold copyFiles. induction files as [|f files IH]; intros w p n Hp.
  - exists n. by split_and!.
  - cbn [for_of]. rewrite bind_run.
    pose proof (copy_round_run output f w) as Hr.
    unfold destination in Hr. simpl in Hr. rewrite Hr. clear Hr.
    change (path.join output (relative f)) with (destination output f).
    destruct (copy_one_in output f (fs w)) as [e|m'] eqn:Hone.
    + simpl. destruct (mkdir_in _ (fs w)) as [e'|m2] eqn:Hm; simpl.
      * exists n. by split_and!.
      * exists n. rewrite (mkdir_in_keeps _ _ _ _ _ Hm Hp). by split_and!.
    + assert (∃ n1, m' !! p = Some n1 ∧ kind_of n1 = kind_of n
                    ∧ (n1 ≠ n → p = destination output f)) as (n1 & Hn1 & Hk1 & Hd1).
      { rewrite (lookup_copy_one_in _ _ _ _ _ Hone).
        apply copy_one_in_inr in Hone as (Hun & HsL & HtL & Ht & c & Hs & _).
        destruct (decide (p = _)) as [->|Hne].
        - exists (File c). split; [done|]. split; [|done].
          destruct Ht as [Ht|[c' Ht]]; [congruence|].
          rewrite Hp in Ht. by injection Ht as ->.
        - exists n. rewrite Hp. by destruct (decide _). }
      destruct (IH (with_fs m' (called (copy_calls output f) w)) p n1 Hn1)
        as (n' & Hn' & Hk' & Hd').
      exists n'. split; [exact Hn'|]. split; [congruence|].
      intros Hne. destruct (decide (n' = n1)) as [->|Hne1].
      * exists f. split; [left|]. by apply Hd1.
      * destruct (Hd' Hne1) as (file & Hin & ->). exists file. split; [by right|done].
Qed.

End Failures.

(** ** Watchers, the command line, and the session *)

Lemma set_add_elem d s x : x ∈ set_add d s ↔ x ∈ s ∨ x = d.
Proof.
  unfold set_add. case_bool_decide as Hd.
  - split; [by left|]. intros [?| ->]; done.
  - rewrite elem_of_app, list_elem_of_singleton. done.
Qed.

Lemma set_add_NoDup d s : NoDup s → NoDup (set_add d s).
Proof.
  intros Hs. unfold set_add. case_bool_decide as Hd; [done|].
  apply NoDup_app. split; [done|]. split.
  - intros x Hx ->%list_elem_of_singleton. done.
  - apply NoDup_singleton.
Qed.

Lemma filter_distinct_not_in (acc : list string) d (l : list string) :
  filter (λ y, y ∉ set_add d acc) l
  = filter (λ y, y ∉ acc) (filter (λ y, y ≠ d) l).
Proof.
  rewrite list_filter_filter. apply list_filter_iff. intros y.
  rewrite set_add_elem. tauto.
Qed.

Lemma foldl_set_add (cands : list string) : ∀ acc,
  foldl (λ s d, set_add d s) acc cands
  = acc ++ filter (λ y, y ∉ acc) (distinct cands).
Proof.
  induction cands as [|d cands IH]; intros acc; simpl.
  - by rewrite app_nil_r.
  - rewrite IH, filter_distinct_not_in. unfold set_add.
    case_bool_decide as Hd.
    + by rewrite filter_cons_False by (intros H; by apply H).
    + rewrite filter_cons_True by done. by rewrite <- app_assoc.
Qed.

Section Watchers.
Context {P : path.api}.
Variable minimatch : string → string → MinimatchOptions → bool.
Variable fuel : nat.

Lemma watchedDirs_spec patterns : ∀ acc,
  NoDup acc →
  let dirs := foldl (λ s pattern,
                if hasGlobChars pattern then set_add (findGlobBase pattern) s
                else s) acc patterns in
  NoDup dirs
  ∧ ∀ d, d ∈ dirs ↔
         d ∈ acc ∨ ∃ pattern, pattern ∈ patterns ∧ hasGlobChars pattern = true
                              ∧ d = findGlobBase pattern.
Proof.
  induction patterns as [|p patterns IH]; intros acc Hacc; simpl.
  - split; [done|]. intros d. split; [by left|].
    intros [?|(p & Hp & _)]; [done|]. by apply elem_of_nil in Hp.
  - destruct (hasGlobChars p) eqn:Hg.
    + destruct (IH (set_add (findGlobBase p) acc) (set_add_NoDup _ _ Hacc))
        as [Hnd Hin].
      split; [exact Hnd|]. intros d. rewrite Hin, set_add_elem. split.
      * intros [[?| ->]|(q & Hq & Hgq & ->)].
        -- by left.
        -- right. exists p. split; [left|done].
        -- right. exists q. split; [by right|done].
      * intros [?|(q & Hq & Hgq & ->)]; [by left; left|].
        apply elem_of_cons in Hq as [->|Hq]; [by left; right|].
        right. by exists q.
    + destruct (IH acc Hacc) as [Hnd Hin].
      split; [exact Hnd|]. intros d. rewrite Hin. split.
      * intros [?|(q & Hq & Hgq & ->)]; [by left|].
        right. exists q. split; [by right|done].
      * intros [?|(q & Hq & Hgq & ->)]; [by left|].
        apply elem_of_cons in Hq as [->|Hq]; [congruence|].
        right. by exists q.
Qed.

Lemma watch_loop_run dirs : ∀ w,
  let found := List.filter (λ d, from_option isDirectory false
                                   (kind_of <$> fs w !! d)) dirs in
  for_of dirs (λ _ dir,
    stat ← stat_or_null dir;
    if from_option isDirectory false stat then
      fs_watch dir;;
      console_print Log (Watching dir)
    else mret tt) tt w
  = (Ret tt,
     World (fs w) (journal w ++ map SysStat dirs)
       (console w ++ map (λ d, (Log, Watching d)) found)
       (watchers w ++ found)).
Proof.
  induction dirs as [|d dirs IH]; intros w; simpl.
  - rewrite !app_nil_r. by destruct w.
  - rewrite !bind_run, stat_or_null_run.
    change (fs (called [SysStat d] w)) with (fs w).
    destruct (from_option isDirectory false (kind_of <$> fs w !! d)) eqn:Hd.
    + unfold fs_watch, console_print, mbind, M_bind. simpl.
      rewrite IH. simpl. f_equal. f_equal.
      all: by rewrite <- app_assoc.
    + unfold mret, M_ret. rewrite IH. simpl.
      f_equal. f_equal. by rewrite <- app_assoc.
Qed.

Lemma filter_dirs_elem (m : gmap string node) dirs d :
  d ∈ List.filter (λ d, from_option isDirectory false (kind_of <$> m !! d)) dirs
  ↔ d ∈ dirs ∧ is_dir (m !! d).
Proof.
  rewrite !list_elem_of_In, filter_In.
  split; intros [Hin Hd]; (split; [done|]).
  - destruct (m !! d) as [[c|r|]|]; try done. by exists r.
  - by destruct Hd as [r ->].
Qed.

Lemma NoDup_List_filter {A} (f : A → bool) l : NoDup l → NoDup (List.filter f l).
Proof.
  intros H%NoDup_ListNoDup. apply NoDup_ListNoDup. by apply List.NoDup_filter.
Qed.

(** What [setupWatchers] does, with [bases] for the content of [watchedDirs]
    after the first loop. *)
Lemma setupWatchers_run patterns w :
  let bases := foldl (λ s pattern,
                 if hasGlobChars pattern then set_add (findGlobBase pattern) s
                 else s) [] patterns in
  let added := List.filter (λ d, from_option isDirectory false
                                   (kind_of <$> fs w !! d)) bases in
  setupWatchers patterns w =
  (Ret tt,
   if bool_decide (bases = []) then printed Log NothingToWatch w
   else World (fs w) (journal w ++ map SysStat bases)
          (console w ++ map (λ d, (Log, Watching d)) added ++ [(Log, WatchActive)])
          (watchers w ++ added)).
Proof.
  intros bases added. unfold setupWatchers. fold bases.
  case_bool_decide as Hlen.
  - apply length_zero_iff_nil in Hlen. by rewrite bool_decide_eq_true_2.
  - rewrite bool_decide_eq_false_2 by (intros Hb; by rewrite Hb in Hlen).
    rewrite bind_run, watch_loop_run. fold added. unfold console_print, printed.
    simpl. by rewrite <- app_assoc.
Qed.

Lemma watchedDirs_distinct patterns : ∀ acc,
  foldl (λ s pattern,
           if hasGlobChars pattern then set_add (findGlobBase pattern) s else s)
    acc patterns
  = foldl (λ s d, set_add d s) acc
      (map findGlobBase (List.filter hasGlobChars patterns)).
Proof.
  induction patterns as [|p patterns IH]; intros acc; simpl; [done|].
  destruct (hasGlobChars p); simpl; apply IH.
Qed.

Lemma watchedDirs_in_order patterns :
  foldl (λ s pattern,
           if hasGlobChars pattern then set_add (findGlobBase pattern) s else s)
    [] patterns
  = distinct (map findGlobBase (List.filter hasGlobChars patterns)).
Proof.
  rewrite watchedDirs_distinct, foldl_set_add. simpl.
  induction (distinct _) as [|x l IH]; [done|].
  rewrite filter_cons_True by (intros H; by apply elem_of_nil in H).
  by rewrite IH.
Qed.

(** X10: [setupWatchers] always returns. It looks at the base directory of
    every glob pattern, each once however many patterns share it, in the
    order in which the patterns first name them, and registers a watcher on
    those that are directories, in that order; the file system is left as it
    is. Without a glob pattern it says so; with one it announces the watch
    mode even when no base directory exists. *)
Theorem setupWatchers_registers patterns w :
  let bases := distinct (map findGlobBase (List.filter hasGlobChars patterns)) in
  let added := List.filter (λ d, from_option isDirectory false
                                   (kind_of <$> fs w !! d)) bases in
  ∃ w',
    setupWatchers patterns w = (Ret tt, w')
    ∧ NoDup bases
    ∧ (∀ d, d ∈ bases ↔
            ∃ pattern, pattern ∈ patterns ∧ hasGlobChars pattern = true
                       ∧ d = findGlobBase pattern)
    ∧ NoDup added
    ∧ (∀ d, d ∈ added ↔ d ∈ bases ∧ is_dir (fs w !! d))
    ∧ fs w' = fs w
    ∧ journal w' = journal w ++ map SysStat bases
    ∧ watchers w' = watchers w ++ added
    ∧ console w' = console w ++
        if bool_decide (bases = []) then [(Log, NothingToWatch)]
        else map (λ d, (Log, Watching d)) added ++ [(Log, WatchActive)].
Proof.
  intros bases added.
  pose proof (setupWatchers_run patterns w) as Hrun. cbv zeta in Hrun.
  destruct (watchedDirs_spec patterns [] (NoDup_nil_2)) as [Hnd Hin].
  cbv zeta in Hnd, Hin.
  rewrite watchedDirs_in_order in Hrun, Hnd, Hin.
  fold bases in Hrun, Hnd, Hin. fold added in Hrun.
  eexists. split; [exact Hrun|].
  split; [exact Hnd|]. split.
  { intros d. rewrite Hin. split; [|by right].
    intros [H|H]; [by apply elem_of_nil in H|done]. }
  split; [by apply NoDup_List_filter|].
  split; [intros d; apply filter_dirs_elem|].
  case_bool_decide as Hb; [|done].
  unfold added. rewrite Hb. simpl. by rewrite !app_nil_r.
Qed.

(** X12: [-h] or [--help] anywhere on the command line wins over everything
    else: the usage goes to the standard output and the exit code is 0; no
    file is looked at. *)
Theorem script_help args w :
  "-h" ∈ args ∨ "--help" ∈ args →
  script minimatch fuel args w = (Exit 0, printed Log Usage w).
Proof.
  intros Hhelp. unfold script.
  assert ((bool_decide ("-h" ∈ args) || bool_decide ("--help" ∈ args))%bool = true)
    as ->.
  { apply orb_true_iff. rewrite !bool_decide_eq_true. exact Hhelp. }
  by rewrite orb_true_r.
Qed.

(** X13: without a help flag, fewer than two arguments besides the watch flags
    end the script with code 1 before any file system call: the usage alone
    when there is no argument at all, the error line and the usage
    otherwise. *)
Theorem script_too_few_arguments args w :
  "-h" ∉ args → "--help" ∉ args →
  length (filter (λ arg, arg ≠ "-w" ∧ arg ≠ "--watch") args) < 2 →
  ∃ w',
    script minimatch fuel args w = (Exit 1, w')
    ∧ fs w' = fs w ∧ journal w' = journal w ∧ watchers w' = watchers w
    ∧ console w' = console w ++
        if bool_decide (args = []) then [(Log, Usage)]
        else [(Error, ArgsRequired); (Log, Usage)].
Proof.
  intros Hh Hhelp Hfew. unfold script.
  rewrite (bool_decide_eq_false_2 ("-h" ∈ args)) by done.
  rewrite (bool_decide_eq_false_2 ("--help" ∈ args)) by done.
  cbn [orb]. rewrite orb_false_r.
  destruct args as [|arg args].
  - eexists. split; [reflexivity|]. done.
  - rewrite (bool_decide_eq_false_2 (length (arg :: args) = 0)) by done.
    rewrite bool_decide_eq_true_2 by done.
    eexists. split; [reflexivity|]. simpl. split_and!; try done.
    by rewrite <- app_assoc.
Qed.

Lemma main_run outputDir patterns watchMode w :
  main minimatch fuel outputDir patterns watchMode w =
  match processAllPatterns minimatch fuel outputDir patterns w with
  | (Ret _, w1) => if watchMode then setupWatchers patterns w1 else (Ret tt, w1)
  | r => r
  end.
Proof.
  unfold main. rewrite bind_run.
  destruct (processAllPatterns _ _ _ _ w) as [[[]|e|c|] w1]; try done.
  by destruct watchMode.
Qed.



(** X11: a watcher is registered only in watch mode, only after a first pass
    that copied, and only on the existing base directory of a glob pattern. *)
Theorem main_watches_after_a_pass outputDir patterns watchMode w :
  watchers (main minimatch fuel outputDir patterns watchMode w).2 ≠ watchers w →
  watchMode = true
  ∧ ∃ w1,
      processAllPatterns minimatch fuel outputDir patterns w = (Ret tt, w1)
      ∧ main minimatch fuel outputDir patterns watchMode w
        = setupWatchers patterns w1
      ∧ ∃ pattern, pattern ∈ patterns ∧ hasGlobChars pattern = true
                   ∧ is_dir (fs w1 !! findGlobBase pattern).
Proof.
  rewrite main_run.
  pose proof (processAllPatterns_watchers minimatch fuel outputDir patterns w) as Hw.
  destruct (processAllPatterns _ _ _ _ w) as [[[]|e|c|] w1]; simpl in Hw; try done.
  destruct watchMode; [|done]. intros Hne. split; [done|].
  exists w1. split; [done|]. split; [done|].
  rewrite setupWatchers_run in Hne. cbv zeta in Hne.
  destruct (watchedDirs_spec patterns [] (NoDup_nil_2)) as [_ Hin].
  cbv zeta in Hin.
  set (bases := foldl _ [] patterns) in *.
  case_bool_decide as Hb; [done|]. simpl in Hne.
  destruct (List.filter _ bases) as [|d found] eqn:Hf.
  { rewrite app_nil_r in Hne. congruence. }
  assert (d ∈ bases ∧ is_dir (fs w1 !! d)) as [Hd Hdir].
  { apply filter_dirs_elem. rewrite Hf. left. }
  apply Hin in Hd as [Hd|(pattern & Hp & Hg & ->)]; [by apply elem_of_nil in Hd|].
  by exists pattern.
Qed.

(** X9: an error in the walk for one pattern ends the whole pass before any
    copy: what the patterns ahead of it matched is not copied, the file
    system is as it was, and in watch mode no watcher is set up. Only a glob
    pattern can fail in this way. *)
Theorem processAllPatterns_walk_failure outputDir ahead pattern behind w files w1 e w2 :
  gatherAllFiles minimatch fuel ahead w = (Ret files, w1) →
  processPattern minimatch fuel pattern w1 = (Throw e, w2) →
  processAllPatterns minimatch fuel outputDir (ahead ++ pattern :: behind) w
    = (Throw e, w2)
  ∧ main minimatch fuel outputDir (ahead ++ pattern :: behind) true w
    = (Throw e, w2)
  ∧ observed w w2
  ∧ hasGlobChars pattern = true.
Proof.
  intros Hahead Hp.
  assert (gatherAllFiles minimatch fuel (ahead ++ pattern :: behind) w
          = (Throw e, w2)) as Hg.
  { unfold gatherAllFiles in *. rewrite for_of_app_run, Hahead.
    cbn [for_of]. by rewrite !bind_run, Hp. }
  assert (processAllPatterns minimatch fuel outputDir (ahead ++ pattern :: behind) w
          = (Throw e, w2)) as Hrun by (by rewrite processAllPatterns_run, Hg).
  split; [exact Hrun|]. split; [by rewrite main_run, Hrun|]. split.
  - pose proof (observes_gatherAllFiles minimatch fuel
                  (ahead ++ pattern :: behind) w) as Ho.
    by rewrite Hg in Ho.
  - destruct (hasGlobChars pattern) eqn:Hglob; [done|]. exfalso.
    unfold processPattern in Hp. rewrite Hglob in Hp. cbn [negb] in Hp.
    rewrite bind_run, stat_or_null_run in Hp.
    by destruct (from_option isFile false _).
Qed.

End Watchers.

Lemma handleFileChange_exited s : exited (handleFileChange s) = exited s.
Proof. unfold handleFileChange. by destruct (debounceTimer s). Qed.

Section Advance.

Variable callback : M unit.

(** Once the process has exited nothing runs. *)
Lemma fires_exited code (due : list (nat * nat)) now : ∀ s,
  exited s = Some code →
  foldl (λ s t, if bool_decide (t.2 ≤ now) then fire callback t s else s) s due = s.
Proof.
  induction due as [|t due IH]; intros s He; [done|]. cbn [foldl].
  assert (fire callback t s = s) as Hf by (unfold fire; by rewrite He).
  case_bool_decide; [rewrite Hf|]; by apply IH.
Qed.

Lemma change_exited s code now :
  exited s = Some code →
  let s' := change callback now s in
  exited s' = Some code ∧ process s' = process s ∧ passes s' = passes s
  ∧ timers s' = timers s.
Proof.
  intros He. unfold change, advance.
  rewrite (fires_exited code) by done. cbn [exited]. by rewrite He.
Qed.

Lemma changes_exited times : ∀ s code,
  exited s = Some code →
  let s' := changes callback times s in
  exited s' = Some code ∧ process s' = process s ∧ passes s' = passes s.
Proof.
  induction times as [|now times IH]; intros s code He; [done|].
  destruct (change_exited s code now He) as (He' & Hp' & Hk' & _).
  destruct (IH (change callback now s) code He') as (? & ? & ?).
  cbn [changes foldl]. fold (changes callback times (change callback now s)).
  split_and!; congruence.
Qed.

(** A change that arrives when the pending timer is due: the timer fires
    first, then the change sets the next one. *)
Lemma change_fires s id due now :
  exited s = None → timers s = [(id, due)] → due ≤ now → clock s ≤ now →
  let r := callback (process s) in
  let s' := change callback now s in
  passes s' = S (passes s) ∧ process s' = r.2
  ∧ match r.1 with
    | Exit code => exited s' = Some code
    | _ =>
        exited s' = None
        ∧ (watchers r.2 ≠ [] →
           timers s' = [(nextTimer s, now + 100)]
           ∧ debounceTimer s' = Some (nextTimer s) ∧ clock s' = now)
    end.
Proof.
  intros He Ht Hdue Hclock. unfold change, advance.
  rewrite Ht. cbn [foldl snd].
  rewrite bool_decide_eq_true_2 by lia. unfold fire.
  rewrite He, bool_decide_eq_true_2 by (rewrite Ht; left).
  destruct (callback (process s)) as [r w]. cbn [exited process fst snd].
  rewrite Ht. cbn [fst]. rewrite filter_cleared.
  assert (let s1 := Session w None (Nat.max (Nat.max (clock s) due) now)
                        (debounceTimer s) [] (nextTimer s) (S (passes s)) in
            let s' := if bool_decide (watchers w = []) then s1
                      else handleFileChange s1 in
            passes s' = S (passes s) ∧ process s' = w
            ∧ exited s' = None
            ∧ (watchers w ≠ [] →
               timers s' = [(nextTimer s, now + 100)]
               ∧ debounceTimer s' = Some (nextTimer s) ∧ clock s' = now)) as Hgo.
  { intros s1 s'. unfold s'. case_bool_decide as Hw; [done|].
    unfold handleFileChange, clearTimeout, setTimeout, s1.
    destruct (debounceTimer s); cbn; rewrite ?filter_nil;
      (split_and!; try done); intros _; (split_and!; try done);
      repeat f_equal; lia. }
  destruct r as [[]|e|code|]; cbn [exited process]; [| |done|].
  all: exact Hgo.
Qed.

End Advance.

Section Sessions.
Context {P : path.api}.
Variable minimatch : string → string → MinimatchOptions → bool.
Variable fuel : nat.
Variable outputDir : string.
Variable patterns : list string.

Local Abbreviation pass := (processAllPatterns minimatch fuel outputDir patterns).
Local Abbreviation timed := (debounced minimatch fuel outputDir patterns).

Lemma debounced_watchers w : watchers (timed w).2 = watchers w.
Proof.
  rewrite debounced_run.
  pose proof (processAllPatterns_watchers minimatch fuel outputDir patterns w) as Hw.
  by destruct (pass w) as [[[]|e|c|] w1].
Qed.

Lemma debounced_exit w code w' :
  timed w = (Exit code, w') →
  code = 1 ∧ ∃ w1, gatherAllFiles minimatch fuel patterns w = (Ret [], w1).
Proof.
  rewrite debounced_run.
  destruct (pass w) as [[[]|e|c|] w1] eqn:Hp; try done.
  intros [= <- <-]. apply processAllPatterns_exit in Hp as (-> & w2 & Hg & _).
  split; [done|]. by exists w2.
Qed.

Lemma fire_exit_code t s code :
  exited (fire timed t s) = Some code →
  exited s = Some code
  ∨ (exited s = None ∧ code = 1
     ∧ ∃ w1, gatherAllFiles minimatch fuel patterns (process s) = (Ret [], w1)).
Proof.
  unfold fire. destruct (exited s) as [c|] eqn:He.
  { rewrite He. by left. }
  case_bool_decide; [|by rewrite He].
  destruct (timed (process s)) as [r w] eqn:Hr. cbn [exited].
  destruct r as [[]|e|c|]; try done. intros [= ->]. right.
  apply debounced_exit in Hr as [-> Hr]. done.
Qed.

(** X16: a watch session can end with the exit code 1 only, the code of a
    debounced pass whose patterns matched nothing. Whatever changes arrive
    and whenever, if the process has exited after them then the code is 1, it
    exited at one of the changes, and no pass has run since. *)
Theorem session_exit_code times : ∀ s code,
  exited s = None →
  exited (changes timed times s) = Some code →
  code = 1
  ∧ ∃ ahead now behind,
      times = ahead ++ now :: behind
      ∧ exited (changes timed ahead s) = None
      ∧ exited (change timed now (changes timed ahead s)) = Some 1
      ∧ passes (changes timed times s)
        = passes (change timed now (changes timed ahead s)).
Proof.
  induction times as [|now times IH]; intros s code He Hx.
  { simpl in Hx. congruence. }
  cbn [changes foldl] in Hx. fold (changes timed times (change timed now s)) in Hx.
  destruct (exited (change timed now s)) as [c|] eqn:Hc.
  - destruct (changes_exited timed times _ c Hc) as (Hx' & _ & Hk).
    assert (c = 1) as ->.
    { clear Hx Hx' Hk. unfold change in Hc. cbn zeta in Hc.
      assert (∀ (due : list (nat * nat)) s0, exited s0 = None →
                ∀ c', exited (foldl (λ s t, if bool_decide (t.2 ≤ now)
                                            then fire timed t s else s) s0 due)
                      = Some c' → c' = 1) as Hfold.
      { clear. induction due as [|t due IH]; intros s0 H0 c' Hc'.
        - simpl in Hc'. congruence.
        - cbn [foldl] in Hc'. case_bool_decide; [|by eapply IH].
          destruct (exited (fire timed t s0)) as [c0|] eqn:Hf; [|by eapply IH].
          rewrite (fires_exited timed c0) in Hc' by done.
          rewrite Hf in Hc'. injection Hc' as <-.
          apply fire_exit_code in Hf as [?|(_ & -> & _)]; congruence. }
      destruct (exited (advance timed now s)) as [c0|] eqn:Ha.
      + rewrite Ha in Hc. injection Hc as <-. unfold advance in Ha.
        cbn [exited] in Ha. by eapply Hfold.
      + case_bool_decide; [congruence|].
        rewrite handleFileChange_exited in Hc. congruence. }
    rewrite Hx' in Hx. injection Hx as <-. split; [done|].
    exists [], now, times. split; [done|]. split; [done|]. split; [done|].
    cbn [changes foldl]. exact Hk.
  - destruct (IH _ code Hc Hx) as (-> & ahead & now' & behind & -> & H1 & H2 & H3).
    split; [done|]. exists (now :: ahead), now', behind. done.
Qed.

Lemma changes_spaced times : ∀ s id t,
  exited s = None → watchers (process s) ≠ [] →
  timers s = [(id, t + 100)] → clock s = t → spaced 100 t times →
  let s' := changes timed times s in
  passes s' ≤ passes s + length times
  ∧ (exited s' = None →
     passes s' = passes s + length times
     ∧ watchers (process s') ≠ []
     ∧ ∃ id', timers s' = [(id', List.last times t + 100)]).
Proof.
  induction times as [|now times IH]; intros s id t He Hw Ht Hc Hs.
  { simpl. split; [lia|]. intros _. split; [lia|]. split; [done|]. by exists id. }
  destruct Hs as [Hnow Hs].
  destruct (change_fires timed s id (t + 100) now He Ht Hnow ltac:(lia))
    as (Hk & Hp & Hr).
  cbn [changes foldl]. fold (changes timed times (change timed now s)).
  pose proof (debounced_watchers (process s)) as Hwatch.
  destruct (exited (change timed now s)) as [c|] eqn:Hx.
  - destruct (changes_exited timed times _ c Hx) as (Hx' & _ & Hk').
    split; [simpl; lia|]. intros Hnone. congruence.
  - assert (timers (change timed now s) = [(nextTimer s, now + 100)]
            ∧ clock (change timed now s) = now) as [Ht' Hc'].
    { assert (watchers (timed (process s)).2 ≠ [] →
              timers (change timed now s) = [(nextTimer s, now + 100)]
              ∧ debounceTimer (change timed now s) = Some (nextTimer s)
              ∧ clock (change timed now s) = now) as Hgo.
      { destruct (timed (process s)).1; [apply Hr|apply Hr|congruence|apply Hr]. }
      destruct Hgo as (? & _ & ?); [by rewrite Hwatch|done]. }
    destruct (IH (change timed now s) _ now Hx
                ltac:(by rewrite Hp, Hwatch) Ht' Hc' Hs) as [Hle Heq].
    split; [simpl; lia|]. intros Hnone.
    destruct (Heq Hnone) as (Hk2 & Hw2 & id' & Hid).
    split; [simpl; lia|]. split; [done|].
    exists id'. by rewrite Hid, last_cons_default.
Qed.

(** X17: changes that are at least 100 ms apart are not coalesced: each finds
    the timer of the one before it due, which runs its pass before the new
    timer is set. As long as no pass ends the process, a sequence of such
    changes has run one pass for each change but the last, whose timer is
    pending. *)
Theorem debounce_separates s first times :
  exited s = None →
  watchers (process s) ≠ [] →
  timers s = [] →
  clock s ≤ first →
  spaced 100 first times →
  let s' := changes timed (first :: times) s in
  passes s' ≤ passes s + length times
  ∧ (exited s' = None →
     passes s' = passes s + length times
     ∧ ∃ id, timers s' = [(id, List.last times first + 100)]).
Proof.
  intros He Hw Ht Hc Hs s'.
  destruct (change_arms timed s first He Hw Ht Hc) as (He1 & Hp1 & Ht1 & _ & Hc1 & Hk1).
  destruct (changes_spaced times (change timed first s) _ first He1
              ltac:(by rewrite Hp1) Ht1 Hc1 Hs) as [Hle Heq].
  change (changes timed times (change timed first s)) with s' in *.
  split; [lia|]. intros Hnone. destruct (Heq Hnone) as (Hk & _ & Hid).
  split; [lia|done].
Qed.

End Sessions.

(** ** What a pass reports *)

Section Reports.
Context {P : path.api}.
Variable minimatch : string → string → MinimatchOptions → bool.
Variable fuel : nat.

(** X8: a pass that returns has matched at least one file and has copied
    every match: each destination holds a regular file in a directory. Its
    last line reports the number of matches, a file matched twice counted
    twice, with [file] for exactly one. *)
Theorem processAllPatterns_reports outputDir patterns w w2 :
  processAllPatterns minimatch fuel outputDir patterns w = (Ret tt, w2) →
  ∃ allFiles w1,
    gatherAllFiles minimatch fuel patterns w = (Ret allFiles, w1)
    ∧ allFiles ≠ []
    ∧ console w2 = console w1 ++
        [(Log, Copied (length allFiles)
                 (if bool_decide (length allFiles = 1) then "file" else "files")
                 outputDir)]
    ∧ ∀ file, file ∈ allFiles →
        is_file (fs w2 !! destination outputDir file)
        ∧ is_dir (fs w2 !! path.dirname (destination outputDir file)).
Proof.
  rewrite processAllPatterns_run.
  destruct (gatherAllFiles minimatch fuel patterns w) as [[allFiles|e|c|] w1];
    try done.
  case_bool_decide as Hlen; [done|].
  destruct (copyFiles allFiles outputDir w1) as [[[]|e|c|] w3] eqn:Hc; try done.
  intros [= <-]. apply copyFiles_ret in Hc as (m' & Hall & ->).
  exists allFiles, w1. split; [done|]. split.
  { intros ->. by apply Hlen. }
  split; [done|]. intros file Hin.
  exact (copy_all_in_lands outputDir allFiles (fs w1) m' file Hall Hin).
Qed.

End Reports.



(** ** The order of the flags *)

Section Flags.
Context {P : path.api}.
Variable minimatch : string → string → MinimatchOptions → bool.
Variable fuel : nat.

Local Abbreviation positional :=
  (filter (λ arg : string, arg ≠ "-w" ∧ arg ≠ "--watch")).

Lemma positional_elem (arg : string) (args : list string) :
  arg ≠ "-w" → arg ≠ "--watch" → arg ∈ args ↔ arg ∈ positional args.
Proof. intros Hw Hl. rewrite list_elem_of_filter. tauto. Qed.

Lemma no_argument (args : list string) :
  length args = 0 ↔
  length (positional args) = 0 ∧ ¬ ("-w" ∈ args ∨ "--watch" ∈ args).
Proof.
  split.
  - intros ->%length_zero_iff_nil. split; [done|].
    intros [H|H]; by apply elem_of_nil in H.
  - intros [Hnone%length_zero_iff_nil Hflag].
    destruct args as [|arg args]; [done|]. exfalso.
    destruct (decide (arg = "-w")) as [->|Hw]; [apply Hflag; left; left|].
    destruct (decide (arg = "--watch")) as [->|Hl]; [apply Hflag; right; left|].
    assert (arg ∈ positional (arg :: args)) as Hin
      by (apply list_elem_of_filter; split; [done|left]).
    rewrite Hnone in Hin. by apply elem_of_nil in Hin.
Qed.

(** X14: where the watch flags stand on the command line, and how often, does
    not matter: two command lines with the same other arguments in the same
    order, both with a watch flag or both without, run the same. *)
Theorem script_flag_position (args args' : list string) :
  positional args = positional args' →
  ("-w" ∈ args ∨ "--watch" ∈ args ↔ "-w" ∈ args' ∨ "--watch" ∈ args') →
  script minimatch fuel args = script minimatch fuel args'.
Proof.
  intros Hsame Hflag. unfold script.
  assert (∀ a : list string, (bool_decide ("-w" ∈ a) || bool_decide ("--watch" ∈ a))%bool
               = bool_decide ("-w" ∈ a ∨ "--watch" ∈ a)) as Hor.
  { intros a. apply eq_true_iff_eq.
    by rewrite orb_true_iff, !bool_decide_eq_true. }
  rewrite !Hor, (bool_decide_ext _ _ Hflag).
  assert (∀ a : list string, "-h" ∈ a ↔ "-h" ∈ positional a) as Hh
    by (intros a; by apply positional_elem).
  assert (∀ a : list string, "--help" ∈ a ↔ "--help" ∈ positional a) as Hl
    by (intros a; by apply positional_elem).
  rewrite (bool_decide_ext _ _ (Hh args)), (bool_decide_ext _ _ (Hh args')).
  rewrite (bool_decide_ext _ _ (Hl args)), (bool_decide_ext _ _ (Hl args')).
  rewrite (bool_decide_ext _ _ (no_argument args)).
  rewrite (bool_decide_ext _ _ (no_argument args')).
  rewrite Hsame.
  rewrite (bool_decide_ext (length (positional args') = 0
                            ∧ ¬ ("-w" ∈ args ∨ "--watch" ∈ args))
             (length (positional args') = 0
              ∧ ¬ ("-w" ∈ args' ∨ "--watch" ∈ args'))) by tauto.
  reflexivity.
Qed.

End Flags.

(** ** One timer at a time *)

Section Pending.

Variable callback : M unit.

(** What every change keeps: at most one timer is pending, the one
    [debounceTimer] names, and the passes run and the timer pending are no
    more than the changes seen. *)
Lemma change_pending s now n :
  (timers s = []
   ∨ ∃ id due, timers s = [(id, due)] ∧ debounceTimer s = Some id) →
  passes s + length (timers s) ≤ n →
  let s' := change callback now s in
  (timers s' = []
   ∨ ∃ id due, timers s' = [(id, due)] ∧ debounceTimer s' = Some id)
  ∧ passes s' + length (timers s') ≤ S n.
Proof.
  intros Hone Hn.
  assert (let s1 := advance callback now s in
          ((timers s1 = [] ∨ ∃ id due, timers s1 = [(id, due)]
                                       ∧ debounceTimer s1 = Some id)
           ∧ passes s1 + length (timers s1) ≤ n)) as Hadv.
  { unfold advance. destruct Hone as [Ht|(id & due & Ht & Hd)]; rewrite Ht in *.
    - cbn [foldl timers passes debounceTimer]. rewrite Ht. split; [by left|done].
    - cbn [foldl snd]. case_bool_decide as Hdue.
      + unfold fire. destruct (exited s) as [c|].
        * cbn [timers passes debounceTimer]. rewrite Ht.
          split; [right; by exists id, due|done].
        * rewrite bool_decide_eq_true_2 by (rewrite Ht; left).
          destruct (callback (process s)) as [r w].
          cbn [timers passes debounceTimer fst]. rewrite Ht, filter_cleared.
          split; [by left|]. simpl in *. lia.
      + cbn [timers passes debounceTimer]. rewrite Ht.
        split; [right; by exists id, due|done]. }
  unfold change. cbv zeta in Hadv |- *.
  set (s1 := advance callback now s) in *. destruct Hadv as [Hone1 Hn1].
  clearbody s1.
  destruct (exited s1); [split; [done|lia]|].
  case_bool_decide; [split; [done|lia]|].
  unfold handleFileChange, clearTimeout, setTimeout.
  destruct Hone1 as [Ht|(id & due & Ht & Hd)].
  - destruct (debounceTimer s1); cbn; rewrite Ht; rewrite ?filter_nil;
      (split; [right; by eexists _, _|]); rewrite Ht in Hn1; simpl in *; lia.
  - rewrite Hd. cbn. rewrite Ht, filter_cleared.
    split; [right; by eexists _, _|]. rewrite Ht in Hn1. simpl in *. lia.
Qed.

Lemma changes_pending times : ∀ s n,
  (timers s = []
   ∨ ∃ id due, timers s = [(id, due)] ∧ debounceTimer s = Some id) →
  passes s + length (timers s) ≤ n →
  let s' := changes callback times s in
  (timers s' = []
   ∨ ∃ id due, timers s' = [(id, due)] ∧ debounceTimer s' = Some id)
  ∧ passes s' + length (timers s') ≤ n + length times.
Proof.
  induction times as [|now times IH]; intros s n Hone Hn.
  { simpl. split; [done|lia]. }
  destruct (change_pending s now n Hone Hn) as [Hone1 Hn1].
  destruct (IH (change callback now s) (S n) Hone1 Hn1) as [Hone2 Hn2].
  cbn [changes foldl]. fold (changes callback times (change callback now s)).
  split; [done|]. simpl. lia.
Qed.

(** X21: whatever the timer callback does and whenever the changes arrive, a
    watch session has at most one timer pending, and the passes it has run
    together with the timer pending are no more than the changes it has
    seen: no change is answered by two passes. *)
Theorem debounce_single_timer times w :
  let s := changes callback times (watching w) in
  length (timers s) ≤ 1
  ∧ passes s + length (timers s) ≤ length times.
Proof.
  destruct (changes_pending times (watching w) 0 ltac:(by left) ltac:(simpl; lia))
    as [Hone Hn].
  split; [|exact Hn].
  destruct Hone as [->|(id & due & -> & _)]; simpl; lia.
Qed.

End Pending.


(** * The logger, [env.init] and [env.get] *)

Lemma lower_not_upper c : logger.is_upper (logger.lower c) = false.
Proof. by destruct c as [[] [] [] [] [] [] [] []]. Qed.

Lemma toLowerCase_lower s :
  forallb (λ c, negb (logger.is_upper c))
    (String.list_ascii_of_string (logger.toLowerCase s)) = true.
Proof.
  induction s as [|c s IH]; [done|]. simpl. by rewrite lower_not_upper, IH.
Qed.

(** X19: [getLogLevel] lowers the case of [LOG_LEVEL] and accepts it when
    [LOG_LEVELS] has a property of that name, its own or inherited. So the
    result is one of the six levels or one of the two inherited names written
    in lower case, [constructor] and [__proto__], which are no pino levels;
    every other value, like a missing or empty one, gives [info]. *)
Theorem getLogLevel_levels process_env :
  let level := logger.getLogLevel process_env in
  (level ∈ logger.LOG_LEVELS.*1 ∨ level = "constructor" ∨ level = "__proto__")
  ∧ (∀ v, process_env !! "LOG_LEVEL" = Some v → v ≠ "" →
       logger.toLowerCase v ∈ logger.LOG_LEVELS.*1 ++ ["constructor"; "__proto__"] →
       level = logger.toLowerCase v)
  ∧ ((∀ v, process_env !! "LOG_LEVEL" = Some v →
        logger.toLowerCase v ∉ logger.LOG_LEVELS.*1 ++ ["constructor"; "__proto__"]) →
     level = "info").
Proof.
  unfold logger.getLogLevel.
  set (raw := env.template _).
  pose proof (toLowerCase_lower raw) as Hlow.
  assert (logger.defined (logger.toLowerCase raw)
          = bool_decide (logger.toLowerCase raw
                           ∈ logger.LOG_LEVELS.*1 ++ ["constructor"; "__proto__"]))
    as Hdef.
  { generalize dependent (logger.toLowerCase raw). intros l Hl.
    unfold logger.defined. apply eq_true_iff_eq.
    rewrite orb_true_iff, !bool_decide_eq_true, elem_of_app.
    split; (intros [H|H]; [by left|]).
    - unfold Object_prototype in H.
      repeat (apply elem_of_cons in H as [->|H]);
        try (vm_compute in Hl; discriminate Hl).
      + right. left.
      + right. right. left.
      + by apply elem_of_nil in H.
    - right. repeat (apply elem_of_cons in H as [->|H]).
      + left.
      + do 10 right. left.
      + by apply elem_of_nil in H. }
  cbv zeta. rewrite Hdef. split_and!.
  - case_bool_decide as Hin.
    + apply elem_of_app in Hin as [Hin|Hin]; [by left|right].
      apply elem_of_cons in Hin as [->|Hin]; [by left|].
      apply list_elem_of_singleton in Hin. by right.
    + left. do 3 right. left.
  - intros v Hv Hne Hin.
    assert (raw = v) as ->.
    { unfold raw, env.or. rewrite Hv. simpl.
      by rewrite (bool_decide_eq_false_2 (v = "")). }
    by rewrite bool_decide_eq_true_2.
  - intros Hnot. case_bool_decide as Hin; [|done].
    assert (raw = "info" ∨ ∃ v, process_env !! "LOG_LEVEL" = Some v ∧ raw = v)
      as [Hraw|(v & Hv & Hraw)].
    { unfold raw, env.or. destruct (process_env !! "LOG_LEVEL") as [v|]; [|by left].
      simpl. case_bool_decide; [by left|]. right. by exists v. }
    + by rewrite Hraw.
    + rewrite Hraw in Hin. by apply Hnot in Hin.
Qed.

Section EnvInit.
Import env_init.
Context {P : path.api}.
Variable dirname : string.
Variable dotenv_config : string → gmap string string → gmap string string.

Local Abbreviation run := (steps_run dirname dotenv_config).

Lemma steps_run_imported steps : ∀ st,
  imported st = true →
  imported (run steps st) = true ∧ loads (run steps st) = loads st.
Proof.
  induction steps as [|step steps IH]; intros st Hst; [done|].
  cbn [steps_run foldl]. fold (run steps (step_run dirname dotenv_config st step)).
  destruct step; simpl.
  - unfold init. rewrite Hst. by apply IH.
  - by apply (IH (State _ _ _)).
  - by apply (IH (State _ _ _)).
Qed.

(** X18: whatever a program does with the environment between its calls of
    [init], only the first call loads a file: the one that [NODE_ENV] names
    at that moment. Later calls load nothing, also when [NODE_ENV] has
    changed. *)
Theorem init_loads_once steps : ∀ st,
  imported st = false →
  let st' := run steps st in
  (CallInit ∉ steps → imported st' = false ∧ loads st' = loads st)
  ∧ (∀ ahead behind,
       steps = ahead ++ CallInit :: behind → CallInit ∉ ahead →
       imported st' = true
       ∧ loads st' = loads st ++ [envPath dirname (process_env (run ahead st))]).
Proof.
  induction steps as [|step steps IH]; intros st Hst.
  - split; [done|]. intros ahead behind H. by destruct ahead.
  - cbn [steps_run foldl].
    fold (run steps (step_run dirname dotenv_config st step)).
    destruct step as [|key value|key].
    + split; [intros Hn; exfalso; apply Hn; left|].
      intros ahead behind Heq Hahead.
      destruct ahead as [|a ahead]; [|injection Heq as <- _; exfalso; apply Hahead; left].
      simpl. unfold init. rewrite Hst.
      by apply (steps_run_imported steps (State _ _ _)).
    + destruct (IH (step_run dirname dotenv_config st (SetEnv key value)) Hst)
        as [Hno Hyes].
      split.
      * intros Hn. apply Hno. intros Hin. apply Hn. by right.
      * intros ahead behind Heq Hahead.
        destruct ahead as [|a ahead]; [done|]. injection Heq as <- ->.
        apply (Hyes ahead behind eq_refl). intros Hin. apply Hahead. by right.
    + destruct (IH (step_run dirname dotenv_config st (DeleteEnv key)) Hst)
        as [Hno Hyes].
      split.
      * intros Hn. apply Hno. intros Hin. apply Hn. by right.
      * intros ahead behind Heq Hahead.
        destruct ahead as [|a ahead]; [done|]. injection Heq as <- ->.
        apply (Hyes ahead behind eq_refl). intros Hin. apply Hahead. by right.
Qed.

(** X20: the two modules do not agree on what a missing [NODE_ENV] means.
    For [init] it is [development], whose file is loaded; for the logger it
    is not, and the output is not pretty-printed. *)
Theorem development_by_default process_env :
  process_env !! "NODE_ENV" = None ∨ process_env !! "NODE_ENV" = Some "" →
  envPath dirname process_env
  = envPath dirname (<["NODE_ENV" := "development"]> process_env)
  ∧ logger.transport (logger.getFastifyLoggerConfig process_env) = None
  ∧ logger.transport
      (logger.getFastifyLoggerConfig (<["NODE_ENV" := "development"]> process_env))
    = Some "pino-pretty".
Proof.
  intros Hunset. unfold envPath, logger.getFastifyLoggerConfig,
    logger.getBaseLoggerOptions. simpl. rewrite lookup_insert_eq.
  rewrite (bool_decide_eq_true_2 (Some "development" = Some "development")) by done.
  split_and!; [|case_bool_decide as Hd|done].
  - by destruct Hunset as [-> | ->].
  - rewrite Hd in Hunset. by destruct Hunset.
  - done.
Qed.

End EnvInit.

(** X22: [get] returns a string, but for a key that has no variable and is a
    property of [Object.prototype], for which it returns the inherited
    function or object. A string it returns is empty only when the default is
    the empty string: an empty value of the variable never comes through, and
    a missing default becomes the nine letters [undefined]. *)
Theorem env_get_string (process_env : gmap string string) key defaultValue :
  ((∃ name, env.get process_env key defaultValue = env.inherited name)
   ↔ process_env !! key = None ∧ key ∈ Object_prototype)
  ∧ (∀ name, env.get process_env key defaultValue = env.inherited name → name = key)
  ∧ (∀ s, env.get process_env key defaultValue = env.text s →
       (s = "" → defaultValue = env.str "")
       ∧ (defaultValue = env.undefined →
          s = "undefined" ∨ process_env !! key = Some s)).
Proof.
  assert (∀ s, env.text (env.template defaultValue) = env.text s →
            (s = "" → defaultValue = env.str "")
            ∧ (defaultValue = env.undefined →
               s = "undefined" ∨ process_env !! key = Some s)) as Hdefault.
  { intros s [= <-]. split.
    - destruct defaultValue as [|d]; simpl; [done|]. by intros ->.
    - intros ->. by left. }
  unfold env.get. destruct (process_env !! key) as [v|]; simpl.
  - split_and!.
    + split; [|by intros [? _]]. intros [name H]. by case_bool_decide.
    + intros name H. by case_bool_decide.
    + intros s. case_bool_decide as Hv; simpl; [apply Hdefault|].
      intros [= <-]. split; [done|]. intros _. by right.
  - case_bool_decide as Hin.
    + split_and!; [|by intros name [= <-]|done].
      split; [done|]. intros _. by exists key.
    + split_and!; [|done|apply Hdefault].
      split; [by intros [name H]|]. by intros [_ ?].
Qed.

(** * Naming the result of a run *)

(** A run with its outcome named. *)
Lemma run_pair {A} (c : M A) w v : (c w).1 = v → c w = (v, (c w).2).
Proof. intros <-. by destruct (c w). Qed.

Lemma inr_from {E A} (d : A) (x : E + A) :
  (if x is inr _ then true else false) = true →
  x = inr (match x with inr a => a | inl _ => d end).
Proof. by destruct x. Qed.


(** * The script at work on the example disk *)

(** Names the outcome [v] and the world [w] of the run [c], by computation. *)
Ltac evaluate c v w H :=
  let r := fresh "r" in
  destruct c as [r w] eqn:H;
  assert (r = v) as -> by (change r with (r, w).1; rewrite <- H; vm_compute; reflexivity).

Section Examples.

Import Example.

Local Abbreviation px := (posix cwd).

(** [node copy-files.js "src/**/*.svg" out]: the icon keeps its place below
    the base directory. *)
Example structure_preserved :
  let r := run ["src/**/*.svg"; "out"] disk in
  r.1 = Ret tt
  ∧ fs r.2 !! "/w/out/a/b/icon.svg" = Some (File "<svg/>")
  ∧ fs r.2 !! "/w/out/src/a/b/icon.svg" = None.
Proof. vm_compute. done. Qed.

(** [node copy-files.js logo.png out] *)
Example literal_lands_by_basename :
  let r := run ["logo.png"; "out"] disk in
  r.1 = Ret tt ∧ fs r.2 !! "/w/out/logo.png" = Some (File "PNG").
Proof. vm_compute. done. Qed.

(** [node copy-files.js "config/*" nothing.txt out]: the dot file is copied,
    the missing literal path is a warning. *)
Example dotfile_and_warning :
  let r := run ["config/*"; "nothing.txt"; "out"] disk in
  r.1 = Ret tt
  ∧ fs r.2 !! "/w/out/.env" = Some (File "KEY=1")
  ∧ console r.2 = [(Warn, NoFilesForPattern "/w/nothing.txt");
                   (Log, Copied 2 "files" "/w/out")].
Proof. vm_compute. done. Qed.

(** A pattern whose base is the root: the prefix ["/"] is cut to the empty
    string, which resolves to the working directory. *)
Example findGlobBase_root :
  findGlobBase (P := px) "/*.txt" = "/w"
  ∧ globBase_spec (P := px) "/*.txt" = "/w".
Proof. split; reflexivity. Qed.

(** With the output directory below the base directory of a pattern, the
    first run adds to the sources: the second run matches the copy as well. *)
Example output_below_base_adds_sources :
  let first := run ["src/**/*.svg"; "src/out"] disk in
  let second := run ["src/**/*.svg"; "src/out"] (fs first.2) in
  first.1 = Ret tt ∧ second.1 = Ret tt
  ∧ console first.2 = [(Log, Copied 1 "file" "/w/src/out")]
  ∧ console second.2 = [(Log, Copied 2 "files" "/w/src/out")]
  ∧ fs second.2 !! "/w/src/out/out/a/b/icon.svg" = Some (File "<svg/>").
Proof. vm_compute. done. Qed.

Lemma processPattern_literal_witness :
  processPattern (P := px) Glob.minimatch 16 "/w/logo.png" (boot disk)
    = (Ret [logo], called [SysStat "/w/logo.png"] (boot disk))
  ∧ processPattern (P := px) Glob.minimatch 16 "/w/nothing.txt" (boot disk)
    = (Ret [],
       printed Warn (NoFilesForPattern "/w/nothing.txt")
         (called [SysStat "/w/nothing.txt"] (boot disk))).
Proof.
  split.
  - apply (processPattern_literal (P := px) Glob.minimatch 16 "/w/logo.png"
             (boot disk) eq_refl).
    exists "PNG". vm_compute. reflexivity.
  - apply (processPattern_literal (P := px) Glob.minimatch 16 "/w/nothing.txt"
             (boot disk) eq_refl).
    intros [content H]. vm_compute in H. discriminate H.
Defined.


Lemma processAllPatterns_no_match_witness :
  ∃ w1,
    gatherAllFiles (P := px) Glob.minimatch 16 ["/w/empty/*"] (boot disk)
      = (Ret [], w1)
    ∧ processAllPatterns (P := px) Glob.minimatch 16 "/w/out" ["/w/empty/*"]
        (boot disk) = (Exit 1, printed Error NoFilesMatched w1)
    ∧ fs w1 = disk.
Proof.
  evaluate (gatherAllFiles (P := px) Glob.minimatch 16 ["/w/empty/*"] (boot disk))
    (@Ret (list MatchedFile) []) w1 Hg.
  exists w1. split; [reflexivity|].
  destruct (processAllPatterns_no_match (P := px) Glob.minimatch 16 "/w/out"
              ["/w/empty/*"] (boot disk) w1 Hg) as (Hexit & Hfs & _).
  split; [exact Hexit|exact Hfs].
Defined.

Lemma findFiles_exact_witness :
  (∃ files w',
     findFiles (P := px) Glob.minimatch 16 "/w/config" "/w/config/*" "/w/config"
       (boot disk) = (Ret files, w')
     ∧ {| absolute := "/w/config/.env"; relative := ".env" |} ∈ files
     ∧ ∀ file, file ∈ files →
         ∃ p, below (P := px) disk "/w/config" p KFile
              ∧ Glob.minimatch p "/w/config/*" {| dot := true |} = true
              ∧ file = {| absolute := p;
                          relative := path.relative (api := px) "/w/config" p |})
  ∧ (∃ w',
       findFiles (P := px) Glob.minimatch 16 "/w/vault" "/w/vault/**/*" "/w/vault"
         (boot disk) = (Throw (EACCES "/w/vault/sealed"), w')
       ∧ ∃ d, walked (P := px) disk "/w/vault" d
              ∧ readdir_in (P := px) d disk = inl (EACCES "/w/vault/sealed")).
Proof.
  split.
  - pose proof (findFiles_exact (P := px) Glob.minimatch 16 "/w/config"
                  "/w/config/*" "/w/config" (boot disk) eq_refl) as Hx.
    evaluate (findFiles (P := px) Glob.minimatch 16 "/w/config" "/w/config/*"
                "/w/config" (boot disk))
      (Ret [ {| absolute := "/w/config/app.json"; relative := "app.json" |};
             {| absolute := "/w/config/.env"; relative := ".env" |} ]) w' Hr.
    eexists _, w'. split; [reflexivity|]. split; [right; left|].
    destruct Hx as [Hfiles _].
    intros file Hin. apply Hfiles in Hin as (p & Hb & Hm & Hf).
    exists p. rewrite normalizePath_posix in Hm.
    split; [exact Hb|]. split; [exact Hm|exact Hf].
  - pose proof (findFiles_exact (P := px) Glob.minimatch 16 "/w/vault"
                  "/w/vault/**/*" "/w/vault" (boot disk) eq_refl) as Hx.
    evaluate (findFiles (P := px) Glob.minimatch 16 "/w/vault" "/w/vault/**/*"
                "/w/vault" (boot disk))
      (@Throw (list MatchedFile) (EACCES "/w/vault/sealed")) w' Hr.
    exists w'. split; [reflexivity|exact Hx].
Defined.

Lemma matched_files_keep_their_place_witness :
  ∃ w1 w2,
    processPattern (P := px) Glob.minimatch 16 "/w/src/**/*.svg" (boot disk)
      = (Ret [icon], w1)
    ∧ copyFiles (P := px) [icon] "/w/out" w1 = (Ret tt, w2)
    ∧ relative icon
      = path.relative (api := px)
          (findGlobBase (P := px) "/w/src/**/*.svg") (absolute icon)
    ∧ destination (P := px) "/w/out" icon = "/w/out/a/b/icon.svg"
    ∧ fs w2 !! "/w/out/a/b/icon.svg" = fs w1 !! "/w/src/a/b/icon.svg"
    ∧ is_dir (fs w2 !! "/w/out/a/b").
Proof.
  pose (w1 := (processPattern (P := px) Glob.minimatch 16 "/w/src/**/*.svg"
                 (boot disk)).2).
  pose (w2 := (copyFiles (P := px) [icon] "/w/out" w1).2).
  assert (processPattern (P := px) Glob.minimatch 16 "/w/src/**/*.svg" (boot disk)
          = (Ret [icon], w1)) as H1 by (vm_compute; reflexivity).
  assert (copyFiles (P := px) [icon] "/w/out" w1 = (Ret tt, w2)) as H2
    by (vm_compute; reflexivity).
  exists w1, w2. split; [exact H1|]. split; [exact H2|].
  destruct (matched_files_keep_their_place (P := px) Glob.minimatch 16
              "/w/src/**/*.svg" "/w/out" (boot disk) [icon] w1 w2
              eq_refl H1 H2 icon ltac:(left))
    as (Hrel & Hdest & _ & Hdir & _ & Hcontent).
  split; [exact Hrel|]. split; [vm_compute; reflexivity|]. split; [|exact Hdir].
  destruct Hcontent as (g & ->%list_elem_of_singleton & _ & Hg); [|exact Hg].
  intros g h ->%list_elem_of_singleton ->%list_elem_of_singleton.
  vm_compute. discriminate.
Defined.



(** The icon is deleted while the script watches: the pass the next change
    triggers matches nothing, and the process exits with code 1. *)
Lemma resync_without_matches_exits :
  let s := change svg_pass 10 (watching emptied) in
  exited s = None
  ∧ watchers (process s) = ["/w/src"]
  ∧ timers s = [(0, 110)]
  ∧ exited (advance svg_pass 110 s) = Some 1
  ∧ List.last (console (process (advance svg_pass 110 s))) (Log, Usage)
    = (Error, NoFilesMatched).
Proof. vm_compute. done. Qed.

Lemma debounced_pass_failure_witness :
  let s := change svg_pass 10 (watching jammed) in
  (exited (fire svg_pass (0, 110) s) = None
   ∧ watchers (process (fire svg_pass (0, 110) s)) = ["/w/src"]
   ∧ List.last (console (process (fire svg_pass (0, 110) s))) (Log, Usage)
     = (Error, ErrorDuringCopy (EISDIR "/w/out/a/b/icon.svg")))
  ∧ exited (fire svg_pass (0, 110) (change svg_pass 10 (watching emptied)))
    = Some 1.
Proof.
  intros s. split.
  - assert (exited s = None) as Hrun by (vm_compute; reflexivity).
    assert ((0, 110) ∈ timers s) as Hdue by (vm_compute; left).
    destruct (debounced_pass_failure (P := px) Glob.minimatch 16 "/w/out"
                svg_patterns s (0, 110) Hrun Hdue) as [Hthrow _].
    destruct (Hthrow (EISDIR "/w/out/a/b/icon.svg")
                (processAllPatterns (P := px) Glob.minimatch 16 "/w/out"
                   svg_patterns (process s)).2)
      as (Hexited & Hprocess & Hwatchers & _).
    { vm_compute. reflexivity. }
    split; [exact Hexited|]. split.
    + etransitivity; [exact Hwatchers|]. vm_compute. reflexivity.
    + unfold svg_pass. rewrite Hprocess. unfold printed. cbn [console].
      apply last_last.
  - pose (s' := change svg_pass 10 (watching emptied)).
    assert (exited s' = None) as Hrun by (vm_compute; reflexivity).
    assert ((0, 110) ∈ timers s') as Hdue by (vm_compute; left).
    destruct (debounced_pass_failure (P := px) Glob.minimatch 16 "/w/out"
                svg_patterns s' (0, 110) Hrun Hdue) as [_ Hexit].
    destruct (Hexit (gatherAllFiles (P := px) Glob.minimatch 16 svg_patterns
                       (process s')).2) as [Hexited _].
    { vm_compute. reflexivity. }
    exact Hexited.
Defined.

Lemma debounce_coalesces_witness :
  passes (changes svg_pass [10; 50; 120] (watching started)) = 0
  ∧ passes (advance svg_pass 219 (changes svg_pass [10; 50; 120] (watching started))) = 0
  ∧ passes (advance svg_pass 220 (changes svg_pass [10; 50; 120] (watching started))) = 1.
Proof.
  assert (exited (watching started) = None) as Hrun by reflexivity.
  assert (watchers (process (watching started)) ≠ []) as Hwatch
    by (vm_compute; discriminate).
  assert (timers (watching started) = []) as Hnone by reflexivity.
  assert (clock (watching started) ≤ 10) as Hnow by (simpl; lia).
  assert (rapid 100 10 [50; 120]) as Hrapid by (simpl; lia).
  destruct (debounce_coalesces svg_pass (watching started) 10 [50; 120]
              Hrun Hwatch Hnone Hnow Hrapid) as (Hburst & _ & Hbefore & Hafter).
  split; [exact Hburst|]. split.
  - apply (Hbefore 219). simpl. lia.
  - apply (Hafter 220). simpl. lia.
Defined.

(** Runs for the further properties. *)

Lemma search_glob_normalizePath_witness :
  Str.search_glob (normalizePath (P := px) "src/**/*.svg") = Some 4.
Proof.
  destruct (search_glob_normalizePath (P := px) "src/**/*.svg" eq_refl) as [Hsame _].
  rewrite Hsame. reflexivity.
Defined.

Lemma findGlobBase_resolves_prefix_witness :
  ∃ prefix,
    findGlobBase (P := px) "/w/src/a*/b/*.svg" = path.resolve (api := px) prefix
    ∧ hasGlobChars prefix = false
    ∧ ∃ rest, "/w/src/a*/b/*.svg" = prefix +:+ "/" +:+ rest.
Proof.
  destruct (findGlobBase_resolves_prefix (P := px) "/w/src/a*/b/*.svg" 7 eq_refl)
    as (prefix & Hbase & Hfree & [[_ Hnone]|Hrest]).
  - vm_compute in Hnone. discriminate Hnone.
  - exists prefix. split; [exact Hbase|]. split; [exact Hfree|exact Hrest].
Defined.

Lemma processPattern_missing_base_witness :
  processPattern (P := px) Glob.minimatch 16 "/w/logo.png/*" (boot disk)
  = (Ret [],
     printed Warn (NoBaseDirectory "/w/logo.png" "/w/logo.png/*")
       (called [SysStat "/w/logo.png"] (boot disk))).
Proof.
  apply (processPattern_missing_base (P := px) Glob.minimatch 16 "/w/logo.png/*"
           (boot disk) eq_refl).
  intros [readable H]. vm_compute in H. discriminate H.
Defined.

Lemma copyFiles_stops_at_failure_witness :
  ∃ w',
    copyFiles (P := px)
      [icon; {| absolute := "/w/nothing.txt"; relative := "nothing.txt" |}; logo]
      "/w/out" (boot disk) = (Throw (ENOENT "/w/nothing.txt"), w')
    ∧ is_file (fs w' !! "/w/out/a/b/icon.svg")
    ∧ fs w' !! "/w/out/logo.png" = None.
Proof.
  pose (lost := {| absolute := "/w/nothing.txt"; relative := "nothing.txt" |}).
  pose proof (inr_from ∅ (copy_all_in (P := px) "/w/out" [icon] (fs (boot disk)))
                ltac:(vm_compute; reflexivity)) as Hahead.
  set (m1 := match copy_all_in (P := px) "/w/out" [icon] (fs (boot disk)) with
             | inr a => a | inl _ => ∅ end) in Hahead.
  assert (copy_one_in (P := px) "/w/out" lost m1 = inl (ENOENT "/w/nothing.txt"))
    as Hlost by (vm_compute; reflexivity).
  destruct (copyFiles_stops_at_failure (P := px) [icon] lost [logo] "/w/out"
              (boot disk) m1 (ENOENT "/w/nothing.txt") Hahead Hlost)
    as (w' & Hrun & Hkept & _).
  cbn [app] in Hrun. exists w'. split; [exact Hrun|]. split.
  - exact (proj1 (Hkept icon ltac:(left))).
  - assert ((copyFiles (P := px) [icon; lost; logo] "/w/out" (boot disk)).2 = w')
      as <- by (rewrite Hrun; reflexivity).
    vm_compute. reflexivity.
Defined.

Lemma copyFiles_keeps_witness :
  ∃ n', fs (copyFiles (P := px) [icon] "/w/out" (boot disk)).2 !! "/w/logo.png"
        = Some n'
        ∧ kind_of n' = KFile.
Proof.
  assert (fs (boot disk) !! "/w/logo.png" = Some (File "PNG")) as Hlogo
    by (vm_compute; reflexivity).
  destruct (copyFiles_keeps (P := px) [icon] "/w/out" (boot disk) "/w/logo.png"
              (File "PNG") Hlogo) as (n' & Hn' & Hkind & _).
  exists n'. split; [exact Hn'|exact Hkind].
Defined.

Lemma setupWatchers_registers_witness :
  ∃ w',
    setupWatchers (P := px)
      ["/w/src/**/*.svg"; "/w/config/*"; "/w/src/*.txt"; "/w/missing/*"; "/w/logo.png"]
      (boot disk) = (Ret tt, w')
    ∧ journal w' = [SysStat "/w/src"; SysStat "/w/config"; SysStat "/w/missing"]
    ∧ watchers w' = ["/w/src"; "/w/config"].
Proof.
  pose proof (setupWatchers_registers (P := px)
                ["/w/src/**/*.svg"; "/w/config/*"; "/w/src/*.txt"; "/w/missing/*";
                 "/w/logo.png"] (boot disk)) as Hall.
  cbv zeta in Hall.
  destruct Hall as (w' & Hrun & _ & _ & _ & _ & _ & Hjournal & Hwatchers & _).
  exists w'. split; [exact Hrun|].
  split; [rewrite Hjournal|rewrite Hwatchers]; vm_compute; reflexivity.
Defined.

Lemma script_help_witness :
  run ["src/**/*.svg"; "--help"; "out"] disk
  = (Exit 0, printed Log Usage (boot disk)).
Proof.
  apply (script_help (P := px) Glob.minimatch 16 ["src/**/*.svg"; "--help"; "out"]).
  right. right. left.
Defined.

Lemma script_too_few_arguments_witness :
  ∃ w', run ["-w"; "src/**/*.svg"] disk = (Exit 1, w')
        ∧ journal w' = []
        ∧ console w' = [(Error, ArgsRequired); (Log, Usage)].
Proof.
  destruct (script_too_few_arguments (P := px) Glob.minimatch 16
              ["-w"; "src/**/*.svg"] (boot disk))
    as (w' & Hrun & _ & Hjournal & _ & Hconsole).
  - apply (bool_decide_eq_false_1 _). vm_compute. reflexivity.
  - apply (bool_decide_eq_false_1 _). vm_compute. reflexivity.
  - vm_compute. lia.
  - exists w'. split; [exact Hrun|]. split; [exact Hjournal|exact Hconsole].
Defined.

Lemma main_watches_after_a_pass_witness :
  ∃ w1,
    processAllPatterns (P := px) Glob.minimatch 16 "/w/out" svg_patterns (boot disk)
    = (Ret tt, w1)
    ∧ ∃ pattern, pattern ∈ svg_patterns
                 ∧ is_dir (fs w1 !! findGlobBase (P := px) pattern).
Proof.
  destruct (main_watches_after_a_pass (P := px) Glob.minimatch 16 "/w/out"
              svg_patterns true (boot disk))
    as (_ & w1 & Hpass & _ & pattern & Hin & _ & Hdir).
  - vm_compute. discriminate.
  - exists w1. split; [exact Hpass|]. exists pattern. split; [exact Hin|exact Hdir].
Defined.

Lemma processAllPatterns_walk_failure_witness :
  ∃ w2,
    processAllPatterns (P := px) Glob.minimatch 16 "/w/out"
      ["/w/src/**/*.svg"; "/w/vault/**/*"; "/w/logo.png"] (boot disk)
    = (Throw (EACCES "/w/vault/sealed"), w2)
    ∧ fs w2 = disk.
Proof.
  pose proof (run_pair (gatherAllFiles (P := px) Glob.minimatch 16
                          ["/w/src/**/*.svg"]) (boot disk) (Ret [icon])
                ltac:(vm_compute; reflexivity)) as Hahead.
  set (w1 := (gatherAllFiles (P := px) Glob.minimatch 16 ["/w/src/**/*.svg"]
                (boot disk)).2) in Hahead.
  pose proof (run_pair (processPattern (P := px) Glob.minimatch 16 "/w/vault/**/*")
                w1 (Throw (EACCES "/w/vault/sealed"))
                ltac:(vm_compute; reflexivity)) as Hwalk.
  set (w2 := (processPattern (P := px) Glob.minimatch 16 "/w/vault/**/*" w1).2)
    in Hwalk.
  destruct (processAllPatterns_walk_failure (P := px) Glob.minimatch 16 "/w/out"
              ["/w/src/**/*.svg"] "/w/vault/**/*" ["/w/logo.png"] (boot disk)
              [icon] w1 (EACCES "/w/vault/sealed") w2 Hahead Hwalk)
    as (Hrun & _ & (Hfs & _) & _).
  exists w2. split; [exact Hrun|exact Hfs].
Defined.

Lemma session_exit_code_witness :
  exited (changes svg_pass [10; 200; 450] (watching emptied)) = Some 1
  ∧ passes (changes svg_pass [10; 200; 450] (watching emptied)) = 1.
Proof.
  assert (exited (changes svg_pass [10; 200; 450] (watching emptied)) = Some 1)
    as Hexit by (vm_compute; reflexivity).
  destruct (session_exit_code (P := px) Glob.minimatch 16 "/w/out" svg_patterns
              [10; 200; 450] (watching emptied) 1 eq_refl Hexit)
    as (_ & ahead & now & behind & _ & _ & _ & Hpasses).
  split; [exact Hexit|]. vm_compute. reflexivity.
Defined.

Lemma debounce_separates_witness :
  passes (changes svg_pass [10; 150; 400] (watching started)) = 2.
Proof.
  assert (exited (watching started) = None) as Hrun by reflexivity.
  assert (watchers (process (watching started)) ≠ []) as Hwatch
    by (vm_compute; discriminate).
  assert (timers (watching started) = []) as Hnone by reflexivity.
  assert (clock (watching started) ≤ 10) as Hnow by (simpl; lia).
  assert (spaced 100 10 [150; 400]) as Hspaced by (simpl; lia).
  destruct (debounce_separates (P := px) Glob.minimatch 16 "/w/out" svg_patterns
              (watching started) 10 [150; 400] Hrun Hwatch Hnone Hnow Hspaced)
    as [_ Hall].
  destruct Hall as [Hpasses _]; [vm_compute; reflexivity|exact Hpasses].
Defined.

Lemma processAllPatterns_reports_witness :
  ∃ w1 w2,
    processAllPatterns (P := px) Glob.minimatch 16 "/w/out" svg_patterns (boot disk)
    = (Ret tt, w2)
    ∧ console w2 = console w1 ++ [(Log, Copied 1 "file" "/w/out")]
    ∧ is_file (fs w2 !! "/w/out/a/b/icon.svg").
Proof.
  pose proof (run_pair (processAllPatterns (P := px) Glob.minimatch 16 "/w/out"
                          svg_patterns) (boot disk) (Ret tt)
                ltac:(vm_compute; reflexivity)) as Hrun.
  set (w2 := (processAllPatterns (P := px) Glob.minimatch 16 "/w/out" svg_patterns
                (boot disk)).2) in Hrun.
  destruct (processAllPatterns_reports (P := px) Glob.minimatch 16 "/w/out"
              svg_patterns (boot disk) w2 Hrun)
    as (allFiles & w1 & Hg & _ & Hconsole & Hlands).
  assert (allFiles = [icon]) as ->.
  { assert ((gatherAllFiles (P := px) Glob.minimatch 16 svg_patterns (boot disk)).1
            = Ret allFiles) as Hall by (rewrite Hg; reflexivity).
    vm_compute in Hall. injection Hall as <-. reflexivity. }
  exists w1, w2. split; [exact Hrun|]. split; [exact Hconsole|].
  exact (proj1 (Hlands icon ltac:(left))).
Defined.

Lemma init_loads_once_witness :
  env_init.loads
    (env_init.steps_run (P := px) "/w/packages/shared/env" (λ _ process_env, process_env)
       [env_init.SetEnv "NODE_ENV" "test"; env_init.CallInit;
        env_init.SetEnv "NODE_ENV" "production"; env_init.CallInit]
       (env_init.State false ∅ []))
  = ["/w/.env.test"].
Proof.
  destruct (init_loads_once (P := px) "/w/packages/shared/env"
              (λ _ process_env, process_env)
              [env_init.SetEnv "NODE_ENV" "test"; env_init.CallInit;
               env_init.SetEnv "NODE_ENV" "production"; env_init.CallInit]
              (env_init.State false ∅ []) eq_refl) as [_ Hloaded].
  destruct (Hloaded [env_init.SetEnv "NODE_ENV" "test"]
              [env_init.SetEnv "NODE_ENV" "production"; env_init.CallInit] eq_refl)
    as [_ Hloads].
  - intros H%list_elem_of_singleton. discriminate H.
  - rewrite Hloads. vm_compute. reflexivity.
Defined.


Lemma script_flag_position_witness :
  run ["-w"; "src/**/*.svg"; "out"] disk
  = run ["src/**/*.svg"; "--watch"; "out"; "-w"] disk.
Proof.
  unfold run.
  rewrite (script_flag_position (P := px) Glob.minimatch 16
             ["-w"; "src/**/*.svg"; "out"] ["src/**/*.svg"; "--watch"; "out"; "-w"]).
  - reflexivity.
  - vm_compute. reflexivity.
  - split; intros _; [right; right; left|left; left].
Defined.

Lemma getLogLevel_levels_witness :
  logger.getLogLevel {["LOG_LEVEL" := "DEBUG"]} = "debug"
  ∧ logger.getLogLevel {["LOG_LEVEL" := "Constructor"]} = "constructor"
  ∧ logger.getLogLevel {["LOG_LEVEL" := "verbose"]} = "info".
Proof.
  split; [|split].
  - apply (proj1 (proj2 (getLogLevel_levels {["LOG_LEVEL" := "DEBUG"]})) "DEBUG").
    + vm_compute. reflexivity.
    + discriminate.
    + apply (bool_decide_unpack _). vm_compute. exact I.
  - apply (proj1 (proj2 (getLogLevel_levels {["LOG_LEVEL" := "Constructor"]}))
             "Constructor").
    + vm_compute. reflexivity.
    + discriminate.
    + apply (bool_decide_unpack _). vm_compute. exact I.
  - apply (proj2 (proj2 (getLogLevel_levels {["LOG_LEVEL" := "verbose"]}))).
    intros v Hv. vm_compute in Hv. injection Hv as <-.
    apply (bool_decide_eq_false_1 _). vm_compute. reflexivity.
Defined.

Lemma development_by_default_witness :
  env_init.envPath (P := px) "/w/packages/shared/env" ∅ = "/w/.env.development"
  ∧ logger.transport (logger.getFastifyLoggerConfig ∅) = None.
Proof.
  destruct (development_by_default (P := px) "/w/packages/shared/env" ∅)
    as (Hpath & Hplain & _).
  - left. vm_compute. reflexivity.
  - split; [|exact Hplain]. rewrite Hpath. vm_compute. reflexivity.
Defined.

End Examples.
